(** * Workspace registry and request scoping (lightrag/api/workspaces.py)

    A shallow embedding of the workspace module: the two dataclasses, the
    in-memory registry, the request-scoping dependency built on a context
    variable, the shutdown sweep and the configuration parser.

    Conventions of the embedding.
    - A Python [str] is a [string]; a character is a code point below 256.
    - [Optional[str]] is [option string]; the truth value of a string is
      "non-empty", so [x or y] on strings is [py_or].
    - A [dict] whose iteration order is observable (the registry) is an
      association list kept in insertion order; [os.environ] is a [gmap];
      the [set] of the deduplication loop is a [gset].
    - Code with effects runs in the monad [M]: a state holding the registry,
      the context variable, the log and the trace of finalize calls, and a
      result that is either a value or a raised exception. *)

From Stdlib Require Import ZArith Ascii String.
From stdpp Require Import base decidable option list strings pretty gmap.

Set Warnings "-register-all,-clear-no-such-hyp".

Local Open Scope string_scope.
Local Open Scope list_scope.

(** ** Python strings *)

Module PyStr.

(** [bool(s)] for a string. *)
Definition truthy (s : string) : bool :=
  match s with
  | EmptyString => false
  | String _ _ => true
  end.

(** [a or b] where [a] is [Optional[str]] and [b] is a string. *)
Definition py_or (a : option string) (b : string) : string :=
  match a with
  | Some s => if truthy s then s else b
  | None => b
  end.

(** [str.isspace] on one character (code points below 256): the ASCII
    controls 9..13 and 28..31, the space, NEL (133) and NBSP (160). *)
Definition isspace (c : ascii) : bool :=
  let n := nat_of_ascii c in
  ((9 <=? n)%nat && (n <=? 13)%nat) || ((28 <=? n)%nat && (n <=? 32)%nat)
  || (n =? 133)%nat || (n =? 160)%nat.

Fixpoint all_space (s : string) : bool :=
  match s with
  | EmptyString => true
  | String c r => isspace c && all_space r
  end.

Fixpoint lstrip (s : string) : string :=
  match s with
  | EmptyString => EmptyString
  | String c r => if isspace c then lstrip r else s
  end.

Fixpoint rstrip (s : string) : string :=
  match s with
  | EmptyString => EmptyString
  | String c r =>
      match rstrip r with
      | EmptyString => if isspace c then EmptyString else String c EmptyString
      | String _ _ as r' => String c r'
      end
  end.

(** [s.strip()] with no argument. *)
Definition strip (s : string) : string := rstrip (lstrip s).

(** [s.split(sep)] for a one-character separator: never empty, the
    pieces are the maximal runs without [sep]. *)
Fixpoint split (sep : ascii) (s : string) : list string :=
  match s with
  | EmptyString => [EmptyString]
  | String c r =>
      if decide (c = sep) then EmptyString :: split sep r
      else match split sep r with
           | [] => [String c EmptyString]
           | piece :: pieces => String c piece :: pieces
           end
  end.

(** [sep.join(pieces)] *)
Fixpoint join (sep : ascii) (pieces : list string) : string :=
  match pieces with
  | [] => EmptyString
  | [p] => p
  | p :: ps => p +:+ String sep (join sep ps)
  end.

Fixpoint contains (c : ascii) (s : string) : bool :=
  match s with
  | EmptyString => false
  | String c' r => bool_decide (c' = c) || contains c r
  end.

Definition first_char (s : string) : option ascii :=
  match s with
  | EmptyString => None
  | String c _ => Some c
  end.

Fixpoint last_char (s : string) : option ascii :=
  match s with
  | EmptyString => None
  | String c EmptyString => Some c
  | String _ r => last_char r
  end.

End PyStr.

Import PyStr.

(** ** Data model *)

(** Values of type [Any]: the few shapes the module produces itself, and
    an opaque reference for objects it only passes around. *)
Inductive PyObj : Type :=
  | PyNone
  | PyBool (b : bool)
  | PyString (s : string)
  | PyDict (items : list (string * PyObj))
  | PyRef (address : nat).

Definition of_optional_str (o : option string) : PyObj :=
  match o with
  | Some s => PyString s
  | None => PyNone
  end.

(** [@dataclass class WorkspaceConfig] *)
Record WorkspaceConfig : Type := mkWorkspaceConfig {
  id : string;
  display_name : option string;
  description : option string;
  enabled : bool;
  metadata : list (string * PyObj)
}.

(** [WorkspaceConfig(id=workspace_id)]: every other field at its default. *)
Definition WorkspaceConfig_of_id (workspace_id : string) : WorkspaceConfig :=
  {| id := workspace_id; display_name := None; description := None;
     enabled := true; metadata := [] |}.

(** Identity of an engine object ([rag], [document_manager]): the module
    never looks inside, it only keeps the reference and calls
    [finalize_storages] on it. *)
Definition ObjRef := nat.

(** [@dataclass class WorkspaceContext] *)
Record WorkspaceContext : Type := mkWorkspaceContext {
  config : WorkspaceConfig;
  rag : ObjRef;
  document_manager : ObjRef;
  initialized : bool;
  error : option string
}.

(** The [id] property of a context. *)
Definition WorkspaceContext_id (self : WorkspaceContext) : string :=
  id (config self).

(** [self.error is None] *)
Definition is_None {A} (o : option A) : bool :=
  match o with
  | None => true
  | Some _ => false
  end.

(** [bool(self.error)] for an [Optional[str]]. *)
Definition optional_truthy (o : option string) : bool :=
  match o with
  | None => false
  | Some s => truthy s
  end.

(** [WorkspaceContext.as_dict] *)
Definition as_dict (self : WorkspaceContext) : list (string * PyObj) :=
  [ ("id", PyString (id (config self)));
    ("display_name",
      PyString (py_or (display_name (config self)) (id (config self))));
    ("description", of_optional_str (description (config self)));
    ("enabled", PyBool (enabled (config self) && is_None (error self)));
    ("error", of_optional_str (error self));
    ("metadata", PyDict (metadata (config self))) ].

(** ** Insertion-ordered dictionaries with string keys *)

Abbreviation dict V := (list (string * V)).

Section Dict.
Context {V : Type}.

(** [d.get(k)] *)
Fixpoint dict_get (k : string) (d : dict V) : option V :=
  match d with
  | [] => None
  | (k', v) :: d' => if decide (k = k') then Some v else dict_get k d'
  end.

(** [k in d] *)
Definition dict_contains (k : string) (d : dict V) : bool :=
  negb (is_None (dict_get k d)).

(** [d[k] = v]: an existing key keeps its position, a new key goes last. *)
Fixpoint dict_setitem (k : string) (v : V) (d : dict V) : dict V :=
  match d with
  | [] => [(k, v)]
  | (k', v') :: d' =>
      if decide (k = k') then (k, v) :: d'
      else (k', v') :: dict_setitem k v d'
  end.

(** [d.values()] *)
Definition dict_values (d : dict V) : list V := map snd d.

Definition dict_keys (d : dict V) : list string := map fst d.

(** Number of entries stored under key [k]. *)
Definition dict_count (k : string) (d : dict V) : nat :=
  List.length (filter (fun kv => fst kv = k) d).

End Dict.


(** ** Effects: state, exceptions, logging *)

Inductive LogLevel : Type := INFO | WARNING | ERROR.

Record LogRecord : Type := mkLogRecord {
  levelname : LogLevel;
  message : string
}.

(** The exceptions that occur.  [CancelledError] and [GeneratorExit]
    derive from [BaseException] only. *)
Inductive Exc : Type :=
  | HTTPException (status_code : Z) (detail : string)
  | RuntimeError (msg : string)
  | Exception (msg : string)
  | CancelledError
  | GeneratorExit.

(** [isinstance(e, Exception)] *)
Definition is_Exception (e : Exc) : bool :=
  match e with
  | HTTPException _ _ | RuntimeError _ | Exception _ => true
  | CancelledError | GeneratorExit => false
  end.

Inductive Result (A : Type) : Type :=
  | Return (a : A)
  | Raise (e : Exc).
Arguments Return {A} a.
Arguments Raise {A} e.

(** A registry object, the context variable as seen by the running
    execution context ([None]: no value, read back as the default
    [None]), the records handed to the logger, and the receivers of the
    [finalize_storages] calls made so far. *)
Record State : Type := mkState {
  _contexts : dict WorkspaceContext;
  _current_workspace : option WorkspaceContext;
  log : list LogRecord;
  finalize_calls : list ObjRef
}.

Definition set_contexts (d : dict WorkspaceContext) (s : State) : State :=
  {| _contexts := d; _current_workspace := _current_workspace s;
     log := log s; finalize_calls := finalize_calls s |}.

Definition set_current (v : option WorkspaceContext) (s : State) : State :=
  {| _contexts := _contexts s; _current_workspace := v;
     log := log s; finalize_calls := finalize_calls s |}.

Definition add_log (r : LogRecord) (s : State) : State :=
  {| _contexts := _contexts s; _current_workspace := _current_workspace s;
     log := log s ++ [r]; finalize_calls := finalize_calls s |}.

Definition add_finalize_call (o : ObjRef) (s : State) : State :=
  {| _contexts := _contexts s; _current_workspace := _current_workspace s;
     log := log s; finalize_calls := finalize_calls s ++ [o] |}.

Definition M (A : Type) : Type := State -> Result A * State.

Definition ret {A} (a : A) : M A := fun s => (Return a, s).

Definition bind {A B} (m : M A) (k : A -> M B) : M B :=
  fun s =>
    match m s with
    | (Return a, s') => k a s'
    | (Raise e, s') => (Raise e, s')
    end.

Definition raise {A} (e : Exc) : M A := fun s => (Raise e, s).

Declare Scope py_scope.
Delimit Scope py_scope with py.
Notation "x <- m ;; k" := (bind m (fun x => k))
  (at level 100, m at next level, right associativity) : py_scope.
Notation "m ;;; k" := (bind m (fun _ => k))
  (at level 100, right associativity) : py_scope.
Local Open Scope py_scope.

(** [try: body  except Exception as exc: handler(exc)] *)
Definition try_except_Exception {A} (body : M A) (handler : Exc -> M A) : M A :=
  fun s =>
    match body s with
    | (Return a, s') => (Return a, s')
    | (Raise e, s') => if is_Exception e then handler e s' else (Raise e, s')
    end.

(** [try: body  finally: cleanup] *)
Definition try_finally {A} (body : M A) (cleanup : M unit) : M A :=
  fun s =>
    match body s with
    | (r, s') =>
        match cleanup s' with
        | (Return _, s'') => (r, s'')
        | (Raise e, s'') => (Raise e, s'')
        end
    end.

Definition logger (lvl : LogLevel) (msg : string) : M unit :=
  fun s => (Return tt, add_log {| levelname := lvl; message := msg |} s).

(** ** The context variable *)

(** The token of [ContextVar.set]: it remembers the value the variable
    had before ([None] for "no value").  The module resets each token
    once, in the running context, so the token's misuse errors are not
    modelled. *)
Record Token : Type := mkToken { old_value : option WorkspaceContext }.

Definition ContextVar_set (v : WorkspaceContext) : M Token :=
  fun s => (Return {| old_value := _current_workspace s |},
            set_current (Some v) s).

Definition ContextVar_reset (token : Token) : M unit :=
  fun s => (Return tt, set_current (old_value token) s).

(** [_current_workspace.get(None)] *)
Definition ContextVar_get : M (option WorkspaceContext) :=
  fun s => (Return (_current_workspace s), s).

(** ** WorkspaceRegistry *)

(** [WorkspaceRegistry.__init__] and a fresh interpreter state around it. *)
Definition init_state : State :=
  {| _contexts := []; _current_workspace := None; log := [];
     finalize_calls := [] |}.

(** Reading [self._contexts], and the assignment [self._contexts[k] = v]. *)
Definition read_contexts : M (dict WorkspaceContext) :=
  fun s => (Return (_contexts s), s).

Definition contexts_setitem (k : string) (v : WorkspaceContext) : M unit :=
  fun s => (Return tt, set_contexts (dict_setitem k v (_contexts s)) s).

Definition register (ctx : WorkspaceContext) : M unit :=
  contexts <- read_contexts ;;
  (if dict_contains (WorkspaceContext_id ctx) contexts
   then logger WARNING
          ("Workspace " +:+ WorkspaceContext_id ctx
             +:+ " already registered, overriding")
   else ret tt) ;;;
  contexts_setitem (WorkspaceContext_id ctx) ctx ;;;
  logger INFO ("Registered workspace: " +:+ WorkspaceContext_id ctx).

Definition get (workspace_id : string) : M (option WorkspaceContext) :=
  contexts <- read_contexts ;;
  ret (dict_get workspace_id contexts).

(** [WorkspaceRegistry.list] ([list] names the type of lists here). *)
Definition list_contexts : M (list WorkspaceContext) :=
  contexts <- read_contexts ;;
  ret (dict_values contexts).

(** Registering a sequence of contexts, one call after the other. *)
Fixpoint register_all (ctxs : list WorkspaceContext) : M unit :=
  match ctxs with
  | [] => ret tt
  | ctx :: rest => register ctx ;;; register_all rest
  end.

(** *** The request dependency [_apply]

    [_apply] is an asynchronous generator with one [yield].  Its run has
    two parts: from the call to the [yield] (or to the raise that ends it
    before), and from the resumption at the [yield] to its end.  The
    generator is resumed by [__anext__] (the request is over), by
    [athrow(e)] (the request raised [e], which covers a cancelled request)
    or by [aclose()] ([GeneratorExit] thrown at the [yield]). *)

Definition not_found_detail (workspace_id : string) : string :=
  "Workspace '" +:+ workspace_id +:+ "' not found".

Definition disabled_detail (workspace_id : string) : string :=
  "Workspace '" +:+ workspace_id +:+ "' is disabled".

(** Up to the [yield]: the yielded context and the token kept in the
    generator's frame. *)
Definition _apply_enter (workspace_id : string) : M (WorkspaceContext * Token) :=
  octx <- get workspace_id ;;
  match octx with
  | None => raise (HTTPException 404 (not_found_detail workspace_id))
  | Some ctx =>
      if negb (enabled (config ctx)) || optional_truthy (error ctx)
      then raise (HTTPException 404
                    (py_or (error ctx) (disabled_detail workspace_id)))
      else
        token <- ContextVar_set ctx ;;
        ret (ctx, token)
  end.

Inductive Resume : Type :=
  | Anext
  | Athrow (e : Exc)
  | Aclose.

(** What the resumption does at the [yield] expression. *)
Definition at_yield (r : Resume) : M unit :=
  match r with
  | Anext => ret tt
  | Athrow e => raise e
  | Aclose => raise GeneratorExit
  end.

(** From the [yield] to the end: the [try ... finally] around it. *)
Definition _apply_exit (token : Token) (r : Resume) : M unit :=
  try_finally (at_yield r) (ContextVar_reset token).

Definition get_current_workspace : M WorkspaceContext :=
  octx <- ContextVar_get ;;
  match octx with
  | None =>
      raise (RuntimeError
               "Workspace context not found in the current request scope")
  | Some ctx => ret ctx
  end.

(** A request as its driver runs it: enter the dependency, run the
    handler with the yielded context, resume the generator according to
    how the handler ended.  When the dependency raises, the handler does
    not run.  The driver is not part of this module; it is used here
    only for what the entry and the exit do to the context variable
    (with this generator the exit after a throw always raises again, so
    how a driver treats a swallowed exception does not matter). *)
Definition resume_of {A} (r : Result A) : Resume :=
  match r with
  | Return _ => Anext
  | Raise e => Athrow e
  end.

Definition run_request {A} (workspace_id : string)
    (handler : WorkspaceContext -> M A) : M A :=
  fun s =>
    match _apply_enter workspace_id s with
    | (Raise e, s1) => (Raise e, s1)
    | (Return (ctx, token), s1) =>
        match handler ctx s1 with
        | (r, s2) =>
            match _apply_exit token (resume_of r) s2 with
            | (Return _, s3) => (r, s3)
            | (Raise e, s3) => (Raise e, s3)
            end
        end
    end.

(** *** Shutdown *)

Section Shutdown.

(** The engine's [finalize_storages], which is not part of this module:
    awaited on the object [o] after the calls [earlier], it returns
    ([None]) or raises the exception given, of whatever class (a
    cancellation delivered at the [await] is [CancelledError]). *)
Variable finalize_storages : ObjRef -> list ObjRef -> option Exc.

(** [await ctx.rag.finalize_storages()] *)
Definition await_finalize (o : ObjRef) : M unit :=
  fun s =>
    (match finalize_storages o (finalize_calls s) with
     | None => Return tt
     | Some e => Raise e
     end, add_finalize_call o s).

(** [str(exc)], as the [%s] of the log record renders it. *)
Definition exc_text (e : Exc) : string :=
  match e with
  | HTTPException status_code detail => pretty status_code +:+ ": " +:+ detail
  | RuntimeError msg | Exception msg => msg
  | CancelledError | GeneratorExit => ""
  end.

Fixpoint shutdown_loop (ctxs : list WorkspaceContext) : M unit :=
  match ctxs with
  | [] => ret tt
  | ctx :: rest =>
      (if initialized ctx
       then try_except_Exception (await_finalize (rag ctx))
              (fun exc =>
                 logger ERROR
                   ("Failed to finalize workspace " +:+ WorkspaceContext_id ctx
                      +:+ ": " +:+ exc_text exc))
       else ret tt) ;;;
      shutdown_loop rest
  end.

Definition shutdown_all : M unit :=
  ctxs <- list_contexts ;;
  shutdown_loop ctxs.

End Shutdown.

(** ** Configuration parser *)

Definition comma : ascii := ",".

(** The loop of the generator [_parse_workspace_ids], over the pieces of
    the split; the yielded values in order. *)
Fixpoint parse_items (items : list string) : list string :=
  match items with
  | [] => []
  | item :: rest =>
      let workspace_id := strip item in
      if truthy workspace_id then workspace_id :: parse_items rest
      else parse_items rest
  end.

Definition _parse_workspace_ids (raw_ids : string) : list string :=
  parse_items (split comma raw_ids).

(** The [args] namespace: only [args.workspace] is read. *)
Record Args : Type := mkArgs { workspace : option string }.

(** The "ensure unique ids" loop, with its two accumulators. *)
Fixpoint unique_loop (configs : list WorkspaceConfig) (seen : gset string)
    (unique_configs : list WorkspaceConfig) : M (list WorkspaceConfig) :=
  match configs with
  | [] => ret unique_configs
  | cfg :: rest =>
      if decide (id cfg ∈ seen)
      then logger WARNING ("Duplicate workspace id detected: " +:+ id cfg) ;;;
           unique_loop rest seen unique_configs
      else unique_loop rest ({[id cfg]} ∪ seen) (unique_configs ++ [cfg])
  end.

(** [os.getenv(key)] and [os.getenv(key, default)] on [os.environ]. *)
Definition getenv (environ : gmap string string) (key : string) : option string :=
  environ !! key.

Definition getenv_default (environ : gmap string string) (key default : string)
    : string :=
  match environ !! key with
  | Some v => v
  | None => default
  end.

(** [load_workspace_configs(args)], with [os.environ] made explicit. *)
Definition load_workspace_configs (environ : gmap string string) (args : Args)
    : M (list WorkspaceConfig) :=
  let env_value := getenv environ "WORKSPACES" in
  configs <-
    (match env_value with
     | Some raw =>
         if truthy raw then
           let configs := map WorkspaceConfig_of_id (_parse_workspace_ids raw) in
           match configs with
           | [] =>
               logger WARNING
                 ("WORKSPACES is set but no valid workspace ids were parsed: "
                    +:+ raw) ;;;
               ret configs
           | _ :: _ => ret configs
           end
         else ret []
     | None => ret []
     end) ;;
  configs <-
    (match configs with
     | [] =>
         let fallback :=
           py_or (workspace args) (getenv_default environ "WORKSPACE" "") in
         let workspace_id := py_or (Some (strip fallback)) "default" in
         ret [WorkspaceConfig_of_id workspace_id]
     | _ :: _ => ret configs
     end) ;;
  unique_loop configs ∅ [].

(** ** Reference notions the statements compare the code with *)

(** Deduplication by key that keeps, for every key, its first occurrence,
    in the order of the first occurrences. *)
Fixpoint keep_first {A} (key : A -> string) (l : list A) : list A :=
  match l with
  | [] => []
  | x :: r => x :: filter (fun y => key y <> key x) (keep_first key r)
  end.

(** The ids the aggregate source [WORKSPACES] contributes: none when the
    variable is absent. *)
Definition aggregate_ids (environ : gmap string string) : list string :=
  match getenv environ "WORKSPACES" with
  | Some raw => _parse_workspace_ids raw
  | None => []
  end.

(** "If the trimmed value is empty, use default". *)
Definition or_default (workspace_id : string) : string :=
  if decide (workspace_id = EmptyString) then "default" else workspace_id.

(** The single id of the fallback path: the explicit argument when it is
    a non-empty string, else the variable [WORKSPACE] when it is set;
    trimmed, and replaced by the literal when nothing is left. *)
Definition fallback_id (environ : gmap string string) (args : Args) : string :=
  or_default
    (strip (py_or (workspace args) (getenv_default environ "WORKSPACE" ""))).

(** The context registered last under [workspace_id] in a sequence of
    [register] calls, if any. *)
Fixpoint last_registered (workspace_id : string) (ctxs : list WorkspaceContext)
    : option WorkspaceContext :=
  match ctxs with
  | [] => None
  | ctx :: rest =>
      match last_registered workspace_id rest with
      | Some later => Some later
      | None =>
          if decide (WorkspaceContext_id ctx = workspace_id) then Some ctx
          else None
      end
  end.

(** The registry after the calls [register(c)] for [c] in [ctxs], made in
    order on a new [WorkspaceRegistry]. *)
Definition registry_after (ctxs : list WorkspaceContext) : State :=
  snd (register_all ctxs init_state).

(** The dictionary built by the assignments [d[c.id] = c] for [c] in
    [ctxs], in order. *)
Definition assign_all (ctxs : list WorkspaceContext)
    (d : dict WorkspaceContext) : dict WorkspaceContext :=
  fold_left (fun d c => dict_setitem (WorkspaceContext_id c) c d) ctxs d.

(** An entry is stored under the id of its context. *)
Definition key_is_id (kv : string * WorkspaceContext) : Prop :=
  fst kv = WorkspaceContext_id (snd kv).

(** The error records the shutdown sweep is to write: one for every
    initialized context whose finalize fails with an instance of
    [Exception], in the order of the sweep, up to the first failure of
    another class, which ends the sweep; [earlier] are the finalize
    calls made before. *)
Fixpoint shutdown_errors (finalize_storages : ObjRef -> list ObjRef -> option Exc)
    (ctxs : list WorkspaceContext) (earlier : list ObjRef) : list LogRecord :=
  match ctxs with
  | [] => []
  | ctx :: rest =>
      if initialized ctx then
        match finalize_storages (rag ctx) earlier with
        | None => shutdown_errors finalize_storages rest (earlier ++ [rag ctx])
        | Some e =>
            if is_Exception e then
              {| levelname := ERROR;
                 message := "Failed to finalize workspace "
                              +:+ WorkspaceContext_id ctx +:+ ": "
                              +:+ exc_text e |}
              :: shutdown_errors finalize_storages rest (earlier ++ [rag ctx])
            else []
        end
      else shutdown_errors finalize_storages rest earlier
  end.

(** Every failure of the engine is an instance of [Exception]. *)
Definition fails_with_Exception
    (finalize_storages : ObjRef -> list ObjRef -> option Exc) : Prop :=
  forall o earlier e,
    finalize_storages o earlier = Some e -> is_Exception e = true.


(** An engine whose finalize fails for the object 2 and for no other. *)
Definition finalize_fails_on_2 (o : ObjRef) (earlier : list ObjRef)
    : option Exc :=
  if decide (o = 2) then Some (Exception "storage is gone") else None.

(** An engine whose finalize is cancelled while the object 2 is
    awaited. *)
Definition finalize_cancelled_on_2 (o : ObjRef) (earlier : list ObjRef)
    : option Exc :=
  if decide (o = 2) then Some CancelledError else None.

(** ** Notions for the further properties *)

(** The string neither starts nor ends with a blank. *)
Definition no_blank_ends (w : string) : bool :=
  match first_char w, last_char w with
  | Some a, Some b => negb (isspace a) && negb (isspace b)
  | _, _ => true
  end.

(** The shape of an id in the aggregate source: not empty, without
    comma, without a blank at either end. *)
Definition is_workspace_id (w : string) : bool :=
  truthy w && negb (contains comma w) && no_blank_ends w.

Definition level_eqb (a b : LogLevel) : bool :=
  match a, b with
  | INFO, INFO | WARNING, WARNING | ERROR, ERROR => true
  | _, _ => false
  end.

(** Number of records of a level in a log. *)
Definition count_level (lvl : LogLevel) (records : list LogRecord) : nat :=
  length (filter (fun r => level_eqb (levelname r) lvl = true) records).

(** A context the dependency accepts: enabled and without error. *)
Definition available (ctx : WorkspaceContext) : Prop :=
  enabled (config ctx) = true /\ error ctx = None.

(** A handler that opens a second scope for [inner_id], asks for the
    current workspace inside it and again after it. *)
Definition nested_handler (inner_id : string) (_ : WorkspaceContext)
    : M (WorkspaceContext * WorkspaceContext) :=
  seen_inside <- run_request inner_id (fun _ => get_current_workspace) ;;
  seen_after <- get_current_workspace ;;
  ret (seen_inside, seen_after).

(** The engine objects the sweep is to finalize, in order. *)
Definition engines_to_finalize (s : State) : list ObjRef :=
  map rag (filter (fun c => initialized c = true) (dict_values (_contexts s))).

(** An engine whose finalize always returns. *)
Definition finalize_always_returns (o : ObjRef) (earlier : list ObjRef)
    : option Exc := None.

(** ** Sample data *)

(** A context with default config fields except [enabled]. *)
Definition sample_context (workspace_id : string) (is_enabled is_initialized : bool)
    (err : option string) (engine : ObjRef) : WorkspaceContext :=
  {| config := {| id := workspace_id; display_name := None;
                  description := None; enabled := is_enabled;
                  metadata := [] |};
     rag := engine; document_manager := engine + 100;
     initialized := is_initialized; error := err |}.

(** Enabled, with the empty string as its error. *)
Definition ctx_blank_error : WorkspaceContext :=
  sample_context "a" true true (Some EmptyString) 1.

(** Disabled, with the empty string as its error. *)
Definition ctx_disabled_blank_error : WorkspaceContext :=
  sample_context "a" false true (Some EmptyString) 1.

(** A config whose display name is the empty string. *)
Definition ctx_blank_display_name : WorkspaceContext :=
  {| config := {| id := "a"; display_name := Some EmptyString;
                  description := Some "first"; enabled := true;
                  metadata := [("owner", PyString "ops")] |};
     rag := 1; document_manager := 101; initialized := true; error := None |}.

Definition ctx_outer : WorkspaceContext := sample_context "outer" true true None 1.
Definition ctx_inner : WorkspaceContext := sample_context "inner" true true None 2.

(** Three initialized workspaces with the engines 1, 2 and 3. *)
Definition three_workspaces : State :=
  registry_after [sample_context "a" true true None 1;
                  sample_context "b" true true None 2;
                  sample_context "c" true true None 3].

(** * Properties *)

(** ** Strings *)

Section StringFacts.

Lemma append_cons c a b : String c a +:+ b = String c (a +:+ b).
Proof. reflexivity. Qed.

Lemma append_empty_l b : EmptyString +:+ b = b.
Proof. reflexivity. Qed.

Lemma split_nonempty sep s : split sep s <> [].
Proof.
  destruct s as [|c r]; simpl; [done|].
  case_decide; [done|]. by destruct (split sep r).
Qed.

Lemma join_cons sep p q qs :
  join sep (p :: q :: qs) = p +:+ String sep (join sep (q :: qs)).
Proof. reflexivity. Qed.

(** Joining the pieces with the separator gives the string back. *)
Lemma join_split sep s : join sep (split sep s) = s.
Proof.
  induction s as [|c r IH]; simpl; [done|].
  case_decide as Hc.
  - subst c. pose proof (split_nonempty sep r) as Hne.
    destruct (split sep r) as [|p ps]; [done|].
    by rewrite join_cons, append_empty_l, IH.
  - pose proof (split_nonempty sep r) as Hne.
    destruct (split sep r) as [|p ps]; [done|].
    destruct ps as [|q qs]; [by rewrite <- IH|].
    rewrite join_cons, append_cons, <- IH. by rewrite join_cons.
Qed.

(** No piece contains the separator. *)
Lemma split_no_sep sep s :
  Forall (fun piece => contains sep piece = false) (split sep s).
Proof.
  induction s as [|c r IH]; simpl.
  - by constructor.
  - case_decide as Hc.
    + by constructor.
    + destruct (split sep r) as [|p ps]; simpl.
      * constructor; [|done]. simpl. by rewrite bool_decide_eq_false_2.
      * inversion IH; subst. constructor; [|done].
        simpl. by rewrite bool_decide_eq_false_2.
Qed.

Lemma rstrip_empty s : rstrip s = EmptyString <-> all_space s = true.
Proof.
  induction s as [|c r IH]; simpl; [done|].
  destruct (rstrip r) eqn:Hr.
  - destruct (isspace c); simpl; [|done].
    split; [intros _; by apply IH|done].
  - split; [done|].
    intros [_ Hall]%andb_true_iff. apply IH in Hall. done.
Qed.

Lemma lstrip_all_space s : all_space s = true -> lstrip s = EmptyString.
Proof.
  induction s as [|c r IH]; simpl; [done|].
  intros [Hc Hr]%andb_true_iff. rewrite Hc. by apply IH.
Qed.

Lemma all_space_lstrip s : all_space (lstrip s) = true -> all_space s = true.
Proof.
  induction s as [|c r IH]; simpl; [done|].
  destruct (isspace c) eqn:Hc; simpl; [done|].
  by rewrite Hc.
Qed.

(** The stripped string is empty exactly for a blank string. *)
Lemma strip_empty s : strip s = EmptyString <-> all_space s = true.
Proof.
  unfold strip. rewrite rstrip_empty. split.
  - apply all_space_lstrip.
  - intros H. by rewrite (lstrip_all_space s H).
Qed.

Lemma lstrip_decompose s :
  exists l, s = l +:+ lstrip s /\ all_space l = true.
Proof.
  induction s as [|c r [l [IH1 IH2]]]; simpl.
  - by exists EmptyString.
  - destruct (isspace c) eqn:Hc.
    + exists (String c l). split.
      * rewrite append_cons. by f_equal.
      * simpl. by rewrite Hc.
    + by exists EmptyString.
Qed.

Lemma rstrip_decompose s :
  exists r, s = rstrip s +:+ r /\ all_space r = true.
Proof.
  induction s as [|c t [r [IH1 IH2]]]; simpl.
  - by exists EmptyString.
  - destruct (rstrip t) eqn:Ht.
    + destruct (isspace c) eqn:Hc.
      * exists (String c t). split; [done|].
        simpl. rewrite Hc. simpl. by apply rstrip_empty.
      * exists r. rewrite append_cons, append_empty_l.
        rewrite append_empty_l in IH1. by subst t.
    + exists r. split; [|done]. rewrite append_cons. f_equal. exact IH1.
Qed.

(** Stripping removes a blank prefix and a blank suffix, nothing else. *)
Lemma strip_decompose s :
  exists l r, s = l +:+ strip s +:+ r
              /\ all_space l = true /\ all_space r = true.
Proof.
  destruct (lstrip_decompose s) as [l [Hl1 Hl2]].
  destruct (rstrip_decompose (lstrip s)) as [r [Hr1 Hr2]].
  exists l, r. unfold strip. by rewrite <- Hr1.
Qed.

Lemma lstrip_first s c : first_char (lstrip s) = Some c -> isspace c = false.
Proof.
  induction s as [|a r IH]; simpl; [done|].
  destruct (isspace a) eqn:Ha; simpl; [done|].
  intros [= <-]. done.
Qed.

Lemma rstrip_first_inv s c :
  first_char (rstrip s) = Some c -> first_char s = Some c.
Proof.
  destruct s as [|a r]; simpl; [done|].
  destruct (rstrip r); [|done]. by destruct (isspace a).
Qed.

Lemma rstrip_last s c : last_char (rstrip s) = Some c -> isspace c = false.
Proof.
  induction s as [|a r IH]; simpl; [done|].
  destruct (rstrip r) as [|b t] eqn:Hr.
  - destruct (isspace a) eqn:Ha; simpl; [done|]. by intros [= <-].
  - simpl. done.
Qed.

(** The stripped string neither starts nor ends with a blank. *)
Lemma strip_ends s c :
  first_char (strip s) = Some c \/ last_char (strip s) = Some c ->
  isspace c = false.
Proof.
  unfold strip. intros [H|H].
  - apply rstrip_first_inv in H. by eapply lstrip_first.
  - by eapply rstrip_last.
Qed.

(** The generator yields the stripped pieces that are not empty, in
    order. *)
Lemma parse_items_filter items :
  parse_items items
  = filter (fun w => w <> EmptyString) (strip <$> items).
Proof.
  induction items as [|item rest IH]; simpl; [done|].
  rewrite filter_cons. destruct (strip item) eqn:Hs; simpl.
  - exact IH.
  - by rewrite IH.
Qed.

End StringFacts.

(** ** Deduplication *)

Section KeepFirst.
Context {A : Type} (key : A -> string).

Lemma filter_comm (P Q : A -> Prop)
    `{!forall x, Decision (P x)} `{!forall x, Decision (Q x)} (l : list A) :
  filter P (filter Q l) = filter Q (filter P l).
Proof.
  rewrite !list_filter_filter. apply list_filter_iff. intros x. tauto.
Qed.

Lemma filter_all (P : A -> Prop) `{!forall x, Decision (P x)} (l : list A) :
  Forall P l -> filter P l = l.
Proof.
  induction 1 as [|x r Hx _ IH]; [done|].
  by rewrite filter_cons_True, IH.
Qed.

(** Filtering on a property of the key commutes with the
    deduplication. *)
Lemma keep_first_filter (P : A -> Prop) `{!forall x, Decision (P x)}
    (l : list A) :
  (forall x y, key x = key y -> P x -> P y) ->
  keep_first key (filter P l) = filter P (keep_first key l).
Proof.
  intros Hkey. induction l as [|x r IH]; [done|].
  cbn [keep_first]. rewrite !filter_cons.
  destruct (decide (P x)) as [HP|HP].
  - cbn [keep_first]. f_equal. rewrite IH. apply filter_comm.
  - rewrite IH, list_filter_filter. apply list_filter_iff.
    intros y. split; [|tauto].
    intros HPy. split; [done|]. intros Heq. apply HP. by apply (Hkey y).
Qed.

(** Every key of the input is a key of the output, and conversely. *)
Lemma keep_first_keys l k :
  k ∈ key <$> keep_first key l <-> k ∈ key <$> l.
Proof.
  induction l as [|y r IH]; cbn [keep_first]; [done|].
  rewrite !fmap_cons, !elem_of_cons, <- IH.
  rewrite !list_elem_of_fmap. setoid_rewrite list_elem_of_filter.
  split.
  - naive_solver.
  - intros [->|[x [-> Hx]]]; [by left|].
    destruct (decide (key x = key y)) as [->|Hne]; [by left|].
    right. by exists x.
Qed.

(** No key occurs twice in the output. *)
Lemma keep_first_NoDup l : NoDup (key <$> keep_first key l).
Proof.
  induction l as [|y r IH]; cbn [keep_first]; [constructor|].
  rewrite fmap_cons. constructor.
  - rewrite list_elem_of_fmap. intros [x [Hk Hx]].
    apply list_elem_of_filter in Hx. naive_solver.
  - generalize (keep_first key r) IH. clear IH.
    intros l' Hl'. induction l' as [|z l' IH']; [constructor|].
    rewrite filter_cons. rewrite fmap_cons in Hl'.
    apply NoDup_cons in Hl' as [Hz Hl'].
    case_decide; [|by apply IH'].
    rewrite fmap_cons. constructor; [|by apply IH'].
    rewrite list_elem_of_fmap. intros [x [Hk Hx]].
    apply list_elem_of_filter in Hx as [_ Hx].
    apply Hz. rewrite list_elem_of_fmap. by exists x.
Qed.

(** The output is the input with some elements removed. *)
Lemma keep_first_sublist l : keep_first key l `sublist_of` l.
Proof.
  induction l as [|y r IH]; cbn [keep_first]; [done|].
  apply sublist_skip. etrans; [apply sublist_filter|done].
Qed.

(** An input without repeated keys is returned as it is. *)
Lemma keep_first_id l : NoDup (key <$> l) -> keep_first key l = l.
Proof.
  induction l as [|y r IH]; cbn [keep_first]; [done|].
  rewrite fmap_cons. intros [Hy Hr]%NoDup_cons. f_equal.
  rewrite (IH Hr). apply filter_all, Forall_forall.
  intros x Hx Heq. apply Hy. rewrite list_elem_of_fmap. by exists x.
Qed.

(** It is the first occurrence that is kept: the result for a prefix is
    a prefix of the result, and later elements only contribute keys the
    prefix does not have. *)
Lemma keep_first_app l1 l2 :
  keep_first key (l1 ++ l2)
  = keep_first key l1
    ++ filter (fun x => key x ∉ key <$> l1) (keep_first key l2).
Proof.
  induction l1 as [|y r IH].
  - simpl. symmetry. apply filter_all, Forall_forall.
    intros x _. apply not_elem_of_nil.
  - rewrite <- app_comm_cons. cbn [keep_first].
    rewrite <- app_comm_cons. f_equal.
    rewrite IH, filter_app. f_equal.
    rewrite list_filter_filter. apply list_filter_iff.
    intros x. rewrite fmap_cons, not_elem_of_cons. naive_solver.
Qed.

End KeepFirst.

Section UniqueLoop.

Lemma logger_run lvl msg s :
  logger lvl msg s
  = (Return tt, add_log {| levelname := lvl; message := msg |} s).
Proof. reflexivity. Qed.

(** The loop returns, and appends to its accumulator the first
    occurrences of the ids it has not seen before. *)
Lemma unique_loop_returns configs : forall seen unique_configs s,
  fst (unique_loop configs seen unique_configs s)
  = Return (unique_configs
            ++ keep_first id (filter (fun c => id c ∉ seen) configs)).
Proof.
  induction configs as [|cfg rest IH]; intros seen acc s.
  - simpl. by rewrite app_nil_r.
  - cbn [unique_loop]. rewrite filter_cons.
    destruct (decide (id cfg ∈ seen)) as [Hin|Hnin].
    + rewrite decide_False by naive_solver.
      unfold bind. rewrite logger_run. apply IH.
    + rewrite decide_True by done.
      rewrite IH. f_equal. rewrite <- app_assoc. f_equal.
      cbn [keep_first app]. f_equal.
      symmetry.
      etrans; [symmetry; apply keep_first_filter; congruence|].
      f_equal. rewrite list_filter_filter. apply list_filter_iff.
      intros c. set_solver.
Qed.

(** The loop only writes to the log. *)
Lemma unique_loop_state configs : forall seen unique_configs s,
  let s' := snd (unique_loop configs seen unique_configs s) in
  _contexts s' = _contexts s
  /\ _current_workspace s' = _current_workspace s
  /\ finalize_calls s' = finalize_calls s.
Proof.
  induction configs as [|cfg rest IH]; intros seen acc s; [done|].
  cbn [unique_loop]. case_decide; [|apply IH].
  unfold bind. rewrite logger_run.
  apply (IH seen acc (add_log _ s)).
Qed.

End UniqueLoop.

(** ** Configuration parser *)

Section Loader.

Lemma py_or_default w : py_or (Some w) "default" = or_default w.
Proof. by destruct w. Qed.

(** Started with nothing seen, the loop returns the deduplication. *)
Lemma unique_loop_fresh configs s :
  fst (unique_loop configs ∅ [] s) = Return (keep_first id configs).
Proof.
  rewrite unique_loop_returns. cbn [app]. do 2 f_equal.
  apply filter_all, Forall_forall. intros c _. set_solver.
Qed.

(** The function returns; its value is the deduplication of the
    aggregate ids when there are some, of the one fallback id
    otherwise. *)
Lemma load_workspace_configs_value environ args s :
  fst (load_workspace_configs environ args s)
  = Return (keep_first id
              match aggregate_ids environ with
              | [] => [WorkspaceConfig_of_id (fallback_id environ args)]
              | (_ :: _) as ids => map WorkspaceConfig_of_id ids
              end).
Proof.
  unfold load_workspace_configs, aggregate_ids, fallback_id.
  rewrite <- py_or_default.
  destruct (getenv environ "WORKSPACES") as [raw|].
  - destruct (truthy raw) eqn:Hraw.
    + destruct (_parse_workspace_ids raw) as [|w ws]; cbn [map];
        cbv beta iota delta [bind ret logger];
        by rewrite unique_loop_fresh.
    + destruct raw; [|done].
      cbv beta iota delta [bind ret].
      by rewrite unique_loop_fresh.
  - cbv beta iota delta [bind ret].
    by rewrite unique_loop_fresh.
Qed.

Lemma keep_first_singleton (cfg : WorkspaceConfig) :
  keep_first id [cfg] = [cfg].
Proof. reflexivity. Qed.

Lemma result_fst {A} (m : Result A * State) (a : A) :
  fst m = Return a -> exists s', m = (Return a, s').
Proof. destruct m as [r s']. simpl. intros ->. by exists s'. Qed.

Lemma aggregate_ids_lookup environ raw :
  getenv environ "WORKSPACES" = Some raw ->
  aggregate_ids environ = _parse_workspace_ids raw.
Proof. unfold aggregate_ids. by intros ->. Qed.

End Loader.

(** C2.  Whatever string the aggregate source [WORKSPACES] holds: the
    generator yields the comma-separated pieces, trimmed, without the
    empty ones, in input order; [load_workspace_configs] builds one
    minimal config per yielded id and returns their deduplication by id
    that keeps first occurrences (when no id is yielded, the single
    fallback config instead); no id occurs twice in the result; and the
    input ["a, b,,a , c"] gives the configs with ids a, b, c in that
    order. *)
Theorem load_workspace_configs_aggregate :
  (forall raw,
     _parse_workspace_ids raw
     = filter (fun w => w <> EmptyString) (strip <$> split comma raw))
  /\ (forall environ args s raw,
        getenv environ "WORKSPACES" = Some raw ->
        let pieces :=
          filter (fun w => w <> EmptyString) (strip <$> split comma raw) in
        fst (load_workspace_configs environ args s)
        = Return (keep_first id
                    match pieces with
                    | [] => [WorkspaceConfig_of_id (fallback_id environ args)]
                    | (_ :: _) as ids => map WorkspaceConfig_of_id ids
                    end))
  /\ (forall environ args s configs,
        fst (load_workspace_configs environ args s) = Return configs ->
        NoDup (id <$> configs))
  /\ (forall environ args s,
        getenv environ "WORKSPACES" = Some "a, b,,a , c" ->
        fst (load_workspace_configs environ args s)
        = Return [WorkspaceConfig_of_id "a"; WorkspaceConfig_of_id "b";
                  WorkspaceConfig_of_id "c"]).
Proof.
  split; [|split; [|split]]; cycle 2.
  - intros environ args s configs.
    rewrite load_workspace_configs_value. intros [= <-].
    apply keep_first_NoDup.
  - intros environ args s Henv.
    rewrite load_workspace_configs_value, (aggregate_ids_lookup _ _ Henv).
    by vm_compute.
  - intros raw. apply parse_items_filter.
  - intros environ args s raw Henv pieces.
    rewrite load_workspace_configs_value, (aggregate_ids_lookup _ _ Henv).
    unfold pieces, _parse_workspace_ids. rewrite parse_items_filter.
    by destruct (filter _ _).
Qed.

Lemma load_workspace_configs_aggregate_witness :
  let environ : gmap string string := {[ "WORKSPACES" := "a, b,,a , c" ]} in
  getenv environ "WORKSPACES" = Some "a, b,,a , c"
  /\ fst (load_workspace_configs environ {| workspace := None |} init_state)
     = Return [WorkspaceConfig_of_id "a"; WorkspaceConfig_of_id "b";
               WorkspaceConfig_of_id "c"].
Proof.
  split; [reflexivity|].
  apply (proj2 (proj2 (proj2 load_workspace_configs_aggregate))). reflexivity.
Defined.

(** C3.  [load_workspace_configs] always returns, with at least one
    config.  When the aggregate source is absent, empty or yields no id,
    the result is the single minimal config whose id comes from the
    explicit argument (a non-empty [args.workspace]), else from the
    variable [WORKSPACE], else is ["default"]; the chosen value is
    trimmed, and ["default"] is used when nothing is left.  With no
    aggregate source, no argument and no [WORKSPACE], the result is the
    single config ["default"]. *)
Theorem load_workspace_configs_fallback environ args s :
  (exists cfg cfgs s',
     load_workspace_configs environ args s = (Return (cfg :: cfgs), s'))
  /\ (aggregate_ids environ = [] ->
      (forall a, workspace args = Some a -> a <> EmptyString ->
         fst (load_workspace_configs environ args s)
         = Return [WorkspaceConfig_of_id (or_default (strip a))])
      /\ (forall e,
            workspace args = None \/ workspace args = Some EmptyString ->
            getenv environ "WORKSPACE" = Some e ->
            fst (load_workspace_configs environ args s)
            = Return [WorkspaceConfig_of_id (or_default (strip e))])
      /\ (workspace args = None \/ workspace args = Some EmptyString ->
          getenv environ "WORKSPACE" = None ->
          fst (load_workspace_configs environ args s)
          = Return [WorkspaceConfig_of_id "default"]))
  /\ (getenv environ "WORKSPACES" = None -> workspace args = None ->
      getenv environ "WORKSPACE" = None ->
      fst (load_workspace_configs environ args s)
      = Return [WorkspaceConfig_of_id "default"]).
Proof.
  pose proof (load_workspace_configs_value environ args s) as Hval.
  split; [|split].
  - destruct (aggregate_ids environ) as [|w ws]; cbn [map keep_first] in Hval;
      apply result_fst in Hval as [s' ->]; eauto.
  - intros Hagg. rewrite Hagg, keep_first_singleton in Hval.
    rewrite Hval. unfold fallback_id, getenv_default, getenv.
    split; [|split].
    + intros a -> Ha. destruct a; [done|]. reflexivity.
    + intros e [->| ->] ->; reflexivity.
    + intros [->| ->] ->; reflexivity.
  - intros Hagg Harg Henv. rewrite Hval. unfold aggregate_ids, fallback_id,
      getenv_default. unfold getenv in Henv. by rewrite Hagg, Harg, Henv.
Qed.

Lemma load_workspace_configs_fallback_witness :
  let environ : gmap string string := {[ "WORKSPACES" := " , ," ]} in
  aggregate_ids environ = []
  /\ fst (load_workspace_configs environ {| workspace := Some "  docs " |}
            init_state)
     = Return [WorkspaceConfig_of_id "docs"]
  /\ fst (load_workspace_configs ∅ {| workspace := None |} init_state)
     = Return [WorkspaceConfig_of_id "default"].
Proof.
  split; [reflexivity|]. split.
  - destruct (load_workspace_configs_fallback
                {[ "WORKSPACES" := " , ," ]} {| workspace := Some "  docs " |}
                init_state) as [_ [Hfallback _]].
    destruct Hfallback as [Harg _]; [reflexivity|].
    apply (Harg "  docs "); [reflexivity|discriminate].
  - apply (proj2 (proj2 (load_workspace_configs_fallback
                           ∅ {| workspace := None |} init_state)));
      reflexivity.
Defined.

(** ** Dictionaries *)

Section DictFacts.
Context {V : Type}.
Implicit Types (d : dict V) (k : string) (v : V).

Lemma dict_get_setitem_eq k v d : dict_get k (dict_setitem k v d) = Some v.
Proof.
  induction d as [|[k' v'] d IH]; simpl.
  - by rewrite decide_True.
  - case_decide; simpl; [by rewrite decide_True|by rewrite decide_False].
Qed.

Lemma dict_get_setitem_ne k k' v d :
  k <> k' -> dict_get k' (dict_setitem k v d) = dict_get k' d.
Proof.
  intros Hne. induction d as [|[k0 v0] d IH]; simpl.
  - by rewrite decide_False.
  - destruct (decide (k = k0)) as [->|Hk0]; simpl.
    + by rewrite !decide_False.
    + by rewrite IH.
Qed.

Lemma dict_get_None k d : dict_get k d = None <-> k ∉ dict_keys d.
Proof.
  induction d as [|[k0 v0] d IH]; simpl.
  - split; [intros _; apply not_elem_of_nil|done].
  - rewrite not_elem_of_cons. case_decide; naive_solver.
Qed.

Lemma dict_contains_keys k d : dict_contains k d = true <-> k ∈ dict_keys d.
Proof.
  unfold dict_contains. destruct (dict_get k d) eqn:Hget; simpl.
  - split; [intros _|done].
    destruct (decide (k ∈ dict_keys d)) as [|Hn]; [done|].
    apply dict_get_None in Hn. congruence.
  - split; [done|]. intros Hin. by apply dict_get_None in Hget.
Qed.

(** An assignment to a key that is there keeps the keys; to a new key,
    it adds the key at the end. *)
Lemma dict_keys_setitem k v d :
  dict_keys (dict_setitem k v d)
  = if dict_contains k d then dict_keys d else dict_keys d ++ [k].
Proof.
  induction d as [|[k0 v0] d IH]; [done|].
  unfold dict_contains in *. simpl.
  destruct (decide (k = k0)) as [->|Hne]; simpl; [done|].
  rewrite IH. by destruct (dict_get k d).
Qed.

Lemma dict_setitem_NoDup k v d :
  NoDup (dict_keys d) -> NoDup (dict_keys (dict_setitem k v d)).
Proof.
  intros Hd. rewrite dict_keys_setitem.
  destruct (dict_contains k d) eqn:Hc; [done|].
  apply NoDup_app. split; [done|]. split; [|apply NoDup_singleton].
  intros x Hx ->%list_elem_of_singleton.
  apply dict_contains_keys in Hx. congruence.
Qed.

Lemma dict_setitem_length k v d :
  length (dict_setitem k v d)
  = if dict_contains k d then length d else S (length d).
Proof.
  induction d as [|[k0 v0] d IH]; [done|].
  unfold dict_contains in *. simpl.
  destruct (decide (k = k0)) as [->|Hne]; simpl; [done|].
  rewrite IH. by destruct (dict_get k d).
Qed.

Lemma dict_count_absent k d : k ∉ dict_keys d -> dict_count k d = 0.
Proof.
  unfold dict_count, dict_keys. induction d as [|[k0 v0] d IH]; [done|].
  cbn [map fst]. rewrite not_elem_of_cons. intros [Hne Hd].
  rewrite filter_cons_False by (simpl; congruence). by apply IH.
Qed.

(** In a dictionary, a key has one entry or none. *)
Lemma dict_count_NoDup k d :
  NoDup (dict_keys d) ->
  dict_count k d = if dict_contains k d then 1 else 0.
Proof.
  induction d as [|[k0 v0] d IH]; [done|].
  unfold dict_keys. cbn [map fst]. intros [Hk0 Hd]%NoDup_cons.
  specialize (IH Hd). unfold dict_contains in *. cbn [dict_get].
  destruct (decide (k = k0)) as [->|Hne].
  - unfold dict_count. rewrite filter_cons_True by done.
    cbn [length]. f_equal. by apply dict_count_absent.
  - unfold dict_count in *. by rewrite filter_cons_False by (simpl; congruence).
Qed.

(** Without repeated keys, the entries are what [get] finds. *)
Lemma dict_get_elem_of k v d :
  NoDup (dict_keys d) -> (k, v) ∈ d <-> dict_get k d = Some v.
Proof.
  induction d as [|[k0 v0] d IH]; simpl.
  - intros _. split; [by intros ?%elem_of_nil|done].
  - intros [Hk0 Hd]%NoDup_cons. rewrite elem_of_cons, (IH Hd).
    destruct (decide (k = k0)) as [->|Hne].
    + split; [|naive_solver].
      intros [[= ->]|Hget]; [done|].
      exfalso. apply Hk0. apply dict_contains_keys.
      unfold dict_contains. by rewrite Hget.
    + naive_solver.
Qed.

End DictFacts.

(** ** Registry *)

Section RegistryFacts.

(** [register] returns; it assigns the context under its own id and
    writes to the log, nothing else. *)
Lemma register_run ctx s :
  exists s',
    register ctx s = (Return tt, s')
    /\ _contexts s'
       = dict_setitem (WorkspaceContext_id ctx) ctx (_contexts s)
    /\ _current_workspace s' = _current_workspace s
    /\ finalize_calls s' = finalize_calls s.
Proof.
  unfold register, bind, read_contexts. cbv beta iota.
  destruct (dict_contains (WorkspaceContext_id ctx) (_contexts s));
    cbv beta iota delta [ret logger contexts_setitem];
    eexists; (split; [reflexivity|]); done.
Qed.

Lemma get_run workspace_id s :
  get workspace_id s = (Return (dict_get workspace_id (_contexts s)), s).
Proof. reflexivity. Qed.

Lemma list_contexts_run s :
  list_contexts s = (Return (dict_values (_contexts s)), s).
Proof. reflexivity. Qed.

Lemma register_contexts ctx s :
  _contexts (snd (register ctx s))
  = dict_setitem (WorkspaceContext_id ctx) ctx (_contexts s).
Proof. destruct (register_run ctx s) as (s' & -> & H & _). exact H. Qed.

Lemma register_returns ctx s : fst (register ctx s) = Return tt.
Proof. by destruct (register_run ctx s) as (s' & -> & _). Qed.

Lemma register_all_run ctxs : forall s,
  fst (register_all ctxs s) = Return tt
  /\ _contexts (snd (register_all ctxs s)) = assign_all ctxs (_contexts s).
Proof.
  induction ctxs as [|c rest IH]; intros s; [done|].
  cbn [register_all]. unfold bind.
  destruct (register_run c s) as (s' & -> & Hs' & _).
  destruct (IH s') as [H1 H2]. split; [done|].
  rewrite H2, Hs'. done.
Qed.

Lemma registry_after_contexts ctxs :
  _contexts (registry_after ctxs) = assign_all ctxs [].
Proof. apply (register_all_run ctxs init_state). Qed.

Lemma registry_after_snoc ctxs ctx :
  _contexts (snd (register ctx (registry_after ctxs)))
  = _contexts (registry_after (ctxs ++ [ctx])).
Proof.
  rewrite register_contexts, !registry_after_contexts.
  unfold assign_all. by rewrite fold_left_app.
Qed.

Lemma dict_setitem_key_is_id ctx d :
  Forall key_is_id d ->
  Forall key_is_id (dict_setitem (WorkspaceContext_id ctx) ctx d).
Proof.
  induction 1 as [|[k0 c0] d Hk Hd IH]; simpl.
  - by constructor.
  - case_decide; constructor; done.
Qed.

Lemma assign_all_invariant ctxs : forall d,
  NoDup (dict_keys d) -> Forall key_is_id d ->
  NoDup (dict_keys (assign_all ctxs d)) /\ Forall key_is_id (assign_all ctxs d).
Proof.
  induction ctxs as [|c rest IH]; intros d Hnd Hk; [done|].
  apply IH; [by apply dict_setitem_NoDup|by apply dict_setitem_key_is_id].
Qed.

(** A lookup finds the context registered last under the id. *)
Lemma assign_all_get i ctxs : forall d,
  dict_get i (assign_all ctxs d)
  = match last_registered i ctxs with
    | Some c => Some c
    | None => dict_get i d
    end.
Proof.
  induction ctxs as [|c rest IH]; intros d; [done|].
  cbn [assign_all fold_left last_registered]. fold (assign_all rest).
  rewrite IH. destruct (last_registered i rest); [done|].
  case_decide as Hi.
  - rewrite <- Hi. apply dict_get_setitem_eq.
  - by apply dict_get_setitem_ne.
Qed.

Lemma registry_after_wf ctxs :
  NoDup (dict_keys (_contexts (registry_after ctxs)))
  /\ Forall key_is_id (_contexts (registry_after ctxs)).
Proof.
  rewrite registry_after_contexts.
  apply assign_all_invariant; [constructor|constructor].
Qed.

Lemma registry_after_get i ctxs :
  dict_get i (_contexts (registry_after ctxs)) = last_registered i ctxs.
Proof.
  rewrite registry_after_contexts, assign_all_get.
  by destruct (last_registered i ctxs).
Qed.

Lemma last_registered_snoc ctxs ctx :
  last_registered (WorkspaceContext_id ctx) (ctxs ++ [ctx]) = Some ctx.
Proof.
  induction ctxs as [|c rest IH]; simpl.
  - by rewrite decide_True.
  - by rewrite IH.
Qed.

End RegistryFacts.

(** C4.  After any sequence of [register] calls on a new registry, one
    more [register(ctx)] returns without raising; afterwards the registry
    has exactly one entry under [ctx.id] and [get(ctx.id)] is [ctx]; when
    the id was already there the number of entries is unchanged (the
    entry is replaced), otherwise it grows by one.  In general [get] finds,
    for every id, the context registered last under it, and no id has
    more than one entry. *)
Theorem register_last_write_wins (ctxs : list WorkspaceContext)
    (ctx : WorkspaceContext) :
  let s := registry_after ctxs in
  let s' := snd (register ctx s) in
  fst (register_all ctxs init_state) = Return tt
  /\ fst (register ctx s) = Return tt
  /\ dict_count (WorkspaceContext_id ctx) (_contexts s') = 1
  /\ fst (get (WorkspaceContext_id ctx) s') = Return (Some ctx)
  /\ length (_contexts s')
     = (if dict_contains (WorkspaceContext_id ctx) (_contexts s)
        then length (_contexts s) else S (length (_contexts s)))
  /\ (forall i, fst (get i s) = Return (last_registered i ctxs))
  /\ (forall i, dict_count i (_contexts s)
                = match last_registered i ctxs with Some _ => 1 | None => 0 end).
Proof.
  intros s s'. subst s s'.
  assert (Hcount : forall l i,
             dict_count i (_contexts (registry_after l))
             = match last_registered i l with Some _ => 1 | None => 0 end).
  { intros l i. destruct (registry_after_wf l) as [Hnd _].
    rewrite (dict_count_NoDup _ _ Hnd). unfold dict_contains.
    rewrite registry_after_get. by destruct (last_registered i l). }
  split; [apply (register_all_run ctxs init_state)|].
  split; [apply register_returns|].
  split; [|split; [|split; [|split]]].
  - unfold dict_count. rewrite registry_after_snoc.
    fold (dict_count (WorkspaceContext_id ctx)
            (_contexts (registry_after (ctxs ++ [ctx])))).
    by rewrite Hcount, last_registered_snoc.
  - rewrite get_run. cbn [fst]. rewrite registry_after_snoc, registry_after_get.
    by rewrite last_registered_snoc.
  - rewrite register_contexts. apply dict_setitem_length.
  - intros i. rewrite get_run. cbn [fst]. by rewrite registry_after_get.
  - intros i. apply Hcount.
Qed.

(** The test of the specification: two registrations under one id. *)
Example register_twice (c1 c2 : WorkspaceContext) :
  WorkspaceContext_id c1 = WorkspaceContext_id c2 ->
  _contexts (registry_after [c1; c2]) = [(WorkspaceContext_id c2, c2)].
Proof.
  intros Hid. rewrite registry_after_contexts. simpl.
  by rewrite Hid, decide_True.
Qed.

(** C10.  After any sequence of [register] calls on a new registry every
    entry is stored under the id of its context: [get(i)] is absent or a
    context whose [id] is [i], and every context that [list()] returns is
    what [get] finds under that context's id. *)
Theorem registry_keys_consistent (ctxs : list WorkspaceContext) :
  let s := registry_after ctxs in
  Forall (fun kv => fst kv = WorkspaceContext_id (snd kv)) (_contexts s)
  /\ (forall i ctx,
        fst (get i s) = Return (Some ctx) -> WorkspaceContext_id ctx = i)
  /\ (forall l, fst (list_contexts s) = Return l ->
        Forall (fun ctx => fst (get (WorkspaceContext_id ctx) s)
                           = Return (Some ctx)) l).
Proof.
  intros s. subst s. destruct (registry_after_wf ctxs) as [Hnd Hkey].
  split; [exact Hkey|]. split.
  - intros i ctx. rewrite get_run. cbn [fst]. intros [= Hget].
    apply (dict_get_elem_of _ _ _ Hnd) in Hget.
    rewrite Forall_forall in Hkey. by specialize (Hkey _ Hget).
  - intros l. rewrite list_contexts_run. cbn [fst]. intros [= <-].
    rewrite Forall_forall. intros ctx Hin. rewrite get_run. cbn [fst].
    unfold dict_values in Hin.
    apply list_elem_of_fmap in Hin as [[k c] [-> Hkv]]. cbn [snd].
    f_equal. rewrite Forall_forall in Hkey. pose proof (Hkey _ Hkv) as Hk.
    unfold key_is_id in Hk. cbn [fst snd] in Hk. rewrite <- Hk.
    by apply (dict_get_elem_of _ _ _ Hnd).
Qed.

Lemma registry_keys_consistent_witness :
  fst (get "inner" (registry_after [ctx_outer; ctx_inner; ctx_outer]))
  = Return (Some ctx_inner)
  /\ WorkspaceContext_id ctx_inner = "inner"
  /\ Forall (fun ctx =>
               fst (get (WorkspaceContext_id ctx)
                      (registry_after [ctx_outer; ctx_inner; ctx_outer]))
               = Return (Some ctx))
            [ctx_outer; ctx_inner].
Proof.
  split; [reflexivity|].
  destruct (registry_keys_consistent [ctx_outer; ctx_inner; ctx_outer])
    as (_ & Hget & Hlist).
  split.
  - apply (Hget "inner" ctx_inner). reflexivity.
  - apply (Hlist [ctx_outer; ctx_inner]). reflexivity.
Defined.

(** ** Request scoping *)

Section Scoping.

(** [except Exception] lets through what derives from [BaseException]
    only. *)
Lemma try_except_Exception_passes {A} (handler : Exc -> M A) e s :
  is_Exception e = false ->
  try_except_Exception (raise e) handler s = (Raise e, s).
Proof. intros He. unfold try_except_Exception, raise. by rewrite He. Qed.

Lemma enter_unknown workspace_id s :
  dict_get workspace_id (_contexts s) = None ->
  _apply_enter workspace_id s
  = (Raise (HTTPException 404 (not_found_detail workspace_id)), s).
Proof.
  intros Hget. unfold _apply_enter, bind. rewrite get_run.
  unfold raise. by rewrite Hget.
Qed.

Lemma enter_unavailable workspace_id s ctx :
  dict_get workspace_id (_contexts s) = Some ctx ->
  negb (enabled (config ctx)) || optional_truthy (error ctx) = true ->
  _apply_enter workspace_id s
  = (Raise (HTTPException 404
              (py_or (error ctx) (disabled_detail workspace_id))), s).
Proof.
  intros Hget Hun. unfold _apply_enter, bind. rewrite get_run. unfold raise.
  by rewrite Hget, Hun.
Qed.

Lemma enter_bound workspace_id s ctx :
  dict_get workspace_id (_contexts s) = Some ctx ->
  negb (enabled (config ctx)) || optional_truthy (error ctx) = false ->
  _apply_enter workspace_id s
  = (Return (ctx, {| old_value := _current_workspace s |}),
     set_current (Some ctx) s).
Proof.
  intros Hget Hav. unfold _apply_enter, bind. rewrite get_run.
  unfold ret, ContextVar_set.
  by rewrite Hget, Hav.
Qed.

(** What a successful entry tells. *)
Lemma enter_inv workspace_id s ctx token s1 :
  _apply_enter workspace_id s = (Return (ctx, token), s1) ->
  dict_get workspace_id (_contexts s) = Some ctx
  /\ negb (enabled (config ctx)) || optional_truthy (error ctx) = false
  /\ token = {| old_value := _current_workspace s |}
  /\ s1 = set_current (Some ctx) s.
Proof.
  destruct (dict_get workspace_id (_contexts s)) as [c|] eqn:Hget.
  - destruct (negb (enabled (config c)) || optional_truthy (error c))
      eqn:Hun.
    + by rewrite (enter_unavailable _ _ _ Hget Hun).
    + rewrite (enter_bound _ _ _ Hget Hun). by intros [= <- <- <-].
  - by rewrite (enter_unknown _ _ Hget).
Qed.

(** A failed entry leaves the state as it was. *)
Lemma enter_raise_state workspace_id s e s1 :
  _apply_enter workspace_id s = (Raise e, s1) -> s1 = s.
Proof.
  destruct (dict_get workspace_id (_contexts s)) as [c|] eqn:Hget.
  - destruct (negb (enabled (config c)) || optional_truthy (error c))
      eqn:Hun.
    + rewrite (enter_unavailable _ _ _ Hget Hun). by intros [= _ <-].
    + by rewrite (enter_bound _ _ _ Hget Hun).
  - rewrite (enter_unknown _ _ Hget). by intros [= _ <-].
Qed.

(** The exit runs the reset whatever the resumption is, and then ends
    the way the resumption says. *)
Lemma exit_run token r s :
  _apply_exit token r s
  = (match r with
     | Anext => Return tt
     | Athrow e => Raise e
     | Aclose => Raise GeneratorExit
     end, set_current (old_value token) s).
Proof. by destruct r. Qed.

(** A non-empty error text makes the workspace unavailable, whatever
    its [enabled] flag says. *)
Lemma enter_errored workspace_id s ctx e :
  dict_get workspace_id (_contexts s) = Some ctx ->
  error ctx = Some e -> e <> EmptyString ->
  _apply_enter workspace_id s = (Raise (HTTPException 404 e), s).
Proof.
  intros Hget He Hne.
  rewrite (enter_unavailable _ _ _ Hget).
  - rewrite He. by destruct e.
  - rewrite He. destruct e; [done|]. simpl. apply orb_true_r.
Qed.

Lemma run_request_slot {A} workspace_id (handler : WorkspaceContext -> M A) s :
  _current_workspace (snd (run_request workspace_id handler s))
  = _current_workspace s.
Proof.
  unfold run_request.
  destruct (_apply_enter workspace_id s) as [[[ctx token]|e] s1] eqn:Henter.
  - apply enter_inv in Henter as (_ & _ & -> & ->).
    destruct (handler ctx _) as [r s2]. rewrite exit_run.
    by destruct (resume_of r).
  - by rewrite (enter_raise_state _ _ _ _ Henter).
Qed.

End Scoping.

(** C1, as the code has it.  Binding through the dependency: an id that
    is not registered fails with the 404 condition; a context with a
    non-empty error text fails with the 404 condition whose message is
    that text; a disabled context whose error is absent or the empty
    string fails with the 404 condition and the generic "disabled"
    message; an enabled context without error is bound (the context
    variable holds it) and yielded.  A context is bound only if it is
    registered under the id, enabled and without a non-empty error
    text. *)
Theorem apply_binding_outcome (workspace_id : string) (s : State) :
  (fst (get workspace_id s) = Return None ->
   _apply_enter workspace_id s
   = (Raise (HTTPException 404 (not_found_detail workspace_id)), s))
  /\ (forall ctx, fst (get workspace_id s) = Return (Some ctx) ->
        (forall e, error ctx = Some e -> e <> EmptyString ->
           _apply_enter workspace_id s = (Raise (HTTPException 404 e), s))
        /\ (enabled (config ctx) = false ->
            error ctx = None \/ error ctx = Some EmptyString ->
            _apply_enter workspace_id s
            = (Raise (HTTPException 404 (disabled_detail workspace_id)), s))
        /\ (enabled (config ctx) = true -> error ctx = None ->
            exists token s1,
              _apply_enter workspace_id s = (Return (ctx, token), s1)
              /\ _current_workspace s1 = Some ctx))
  /\ (forall ctx token s1,
        _apply_enter workspace_id s = (Return (ctx, token), s1) ->
        fst (get workspace_id s) = Return (Some ctx)
        /\ enabled (config ctx) = true
        /\ (error ctx = None \/ error ctx = Some EmptyString)
        /\ _current_workspace s1 = Some ctx).
Proof.
  rewrite get_run. cbn [fst]. split; [|split].
  - intros [= Hget]. by apply enter_unknown.
  - intros ctx [= Hget]. split; [|split].
    + intros e He Hne. by eapply enter_errored.
    + intros Hen Herr. rewrite (enter_unavailable _ _ _ Hget).
      * by destruct Herr as [-> | ->].
      * by rewrite Hen.
    + intros Hen Herr. rewrite (enter_bound _ _ _ Hget).
      * by eexists _, _.
      * by rewrite Hen, Herr.
  - intros ctx token s1 (Hget & Hav & -> & ->)%enter_inv.
    apply orb_false_iff in Hav as [Hen Herr].
    split; [by rewrite Hget|]. split; [by destruct (enabled (config ctx))|].
    split; [|done]. destruct (error ctx) as [[|a e]|]; auto. done.
Qed.

Lemma apply_binding_outcome_witness :
  _apply_enter "a" (registry_after [ctx_disabled_blank_error])
  = (Raise (HTTPException 404 (disabled_detail "a")),
     registry_after [ctx_disabled_blank_error])
  /\ _apply_enter "zzz" (registry_after [ctx_outer])
     = (Raise (HTTPException 404 (not_found_detail "zzz")),
        registry_after [ctx_outer]).
Proof.
  split.
  - destruct (apply_binding_outcome "a"
                (registry_after [ctx_disabled_blank_error])) as [_ [H _]].
    destruct (H ctx_disabled_blank_error) as [_ [Hdis _]]; [reflexivity|].
    apply Hdis; [reflexivity|by right].
  - apply (proj1 (apply_binding_outcome "zzz" (registry_after [ctx_outer]))).
    reflexivity.
Defined.

(** C1 as stated fails.  A registered context whose error is set to the
    empty string: when disabled, it is refused with the generic message
    and not with its own error text; when enabled, it is not refused at
    all. *)
Lemma apply_binding_as_stated_fails :
  (error ctx_disabled_blank_error = Some EmptyString
   /\ fst (get "a" (registry_after [ctx_disabled_blank_error]))
      = Return (Some ctx_disabled_blank_error)
   /\ fst (_apply_enter "a" (registry_after [ctx_disabled_blank_error]))
      <> Raise (HTTPException 404 EmptyString))
  /\ (error ctx_blank_error = Some EmptyString
      /\ fst (get "a" (registry_after [ctx_blank_error]))
         = Return (Some ctx_blank_error)
      /\ forall detail,
           fst (_apply_enter "a" (registry_after [ctx_blank_error]))
           <> Raise (HTTPException 404 detail)).
Proof.
  split; (split; [reflexivity|]; split; [reflexivity|]).
  - vm_compute. discriminate.
  - intros detail. vm_compute. discriminate.
Qed.

(** C8, evaluated where the code departs from it: a context that is
    enabled and whose error is set to the empty string is bound by the
    dependency, although its own summary reports it as not enabled. *)
Theorem blank_error_is_bound :
  error ctx_blank_error = Some EmptyString
  /\ _apply_enter "a" (registry_after [ctx_blank_error])
     = (Return (ctx_blank_error, {| old_value := None |}),
        set_current (Some ctx_blank_error) (registry_after [ctx_blank_error]))
  /\ dict_get "enabled" (as_dict ctx_blank_error) = Some (PyBool false).
Proof. split; [reflexivity|]. split; reflexivity. Qed.

(** C5.  After a binding was installed by the dependency, the exit of the
    scope puts back the value the context variable held before the
    entry: whatever the state the request left (inner scopes included),
    and whether the generator is resumed normally, by an exception
    thrown in (a failed or cancelled request) or by a close.  A request
    run through the dependency leaves the variable as it found it,
    whatever the handler does. *)
Theorem scope_exit_restores (workspace_id : string) (s s1 : State)
    (ctx : WorkspaceContext) (token : Token) :
  _apply_enter workspace_id s = (Return (ctx, token), s1) ->
  _current_workspace s1 = Some ctx
  /\ (forall (s2 : State) (r : Resume),
        _current_workspace (snd (_apply_exit token r s2))
        = _current_workspace s
        /\ fst (_apply_exit token r s2)
           = match r with
             | Anext => Return tt
             | Athrow e => Raise e
             | Aclose => Raise GeneratorExit
             end)
  /\ (forall A (handler : WorkspaceContext -> M A),
        _current_workspace (snd (run_request workspace_id handler s))
        = _current_workspace s).
Proof.
  intros (_ & _ & -> & ->)%enter_inv. split; [done|]. split.
  - intros s2 r. by rewrite exit_run.
  - intros A handler. apply run_request_slot.
Qed.

(** A scope entered inside another one: the exit of the inner scope
    brings the outer binding back, the exit of the outer one the empty
    slot. *)
Lemma scope_exit_restores_witness :
  let s0 := registry_after [ctx_outer; ctx_inner] in
  let s1 := set_current (Some ctx_outer) s0 in
  let s2 := set_current (Some ctx_inner) s1 in
  _current_workspace (snd (_apply_exit {| old_value := Some ctx_outer |}
                             (Athrow CancelledError) s2))
  = Some ctx_outer
  /\ _current_workspace (snd (_apply_exit {| old_value := None |} Anext s1))
     = None.
Proof.
  split.
  - apply (proj1 (proj2 (scope_exit_restores "inner"
             (set_current (Some ctx_outer)
                (registry_after [ctx_outer; ctx_inner]))
             (set_current (Some ctx_inner)
                (set_current (Some ctx_outer)
                   (registry_after [ctx_outer; ctx_inner])))
             ctx_inner {| old_value := Some ctx_outer |} eq_refl))).
  - apply (proj1 (proj2 (scope_exit_restores "outer"
             (registry_after [ctx_outer; ctx_inner])
             (set_current (Some ctx_outer)
                (registry_after [ctx_outer; ctx_inner]))
             ctx_outer {| old_value := None |} eq_refl))).
Defined.

(** C7.  With no value in the context variable [get_current_workspace]
    raises [RuntimeError] (not the 404 condition) and changes nothing;
    with a context in it, it returns that context; in particular it
    returns the bound context in the state the dependency yields in. *)
Theorem get_current_workspace_contract (s : State) :
  (_current_workspace s = None ->
   get_current_workspace s
   = (Raise (RuntimeError
               "Workspace context not found in the current request scope"), s))
  /\ (forall ctx, _current_workspace s = Some ctx ->
        get_current_workspace s = (Return ctx, s))
  /\ (forall workspace_id ctx token s1,
        _apply_enter workspace_id s = (Return (ctx, token), s1) ->
        get_current_workspace s1 = (Return ctx, s1)).
Proof.
  unfold get_current_workspace, bind, ContextVar_get.
  split; [|split].
  - by intros ->.
  - by intros ctx ->.
  - by intros workspace_id ctx token s1 (_ & _ & _ & ->)%enter_inv.
Qed.

Lemma get_current_workspace_contract_witness :
  fst (get_current_workspace init_state)
  = Raise (RuntimeError
             "Workspace context not found in the current request scope")
  /\ fst (get_current_workspace
            (set_current (Some ctx_outer) (registry_after [ctx_outer])))
     = Return ctx_outer.
Proof.
  split.
  - rewrite (proj1 (get_current_workspace_contract init_state) eq_refl).
    reflexivity.
  - rewrite (proj2 (proj2 (get_current_workspace_contract
                             (registry_after [ctx_outer])))
               "outer" ctx_outer {| old_value := None |}
               (set_current (Some ctx_outer) (registry_after [ctx_outer]))
               eq_refl).
    reflexivity.
Defined.

(** ** Shutdown *)

Section ShutdownFacts.
Variable finalize_storages : ObjRef -> list ObjRef -> option Exc.

(** What the sweep does whatever the engines do: it returns, or raises
    an exception that is not an instance of [Exception]; its finalize
    calls are the first ones of the calls due, in order; it writes the
    error records and leaves the registry and the context variable. *)
Lemma shutdown_loop_any ctxs : forall s,
  exists r s' k,
    shutdown_loop finalize_storages ctxs s = (r, s')
    /\ (r = Return tt \/ exists e, r = Raise e /\ is_Exception e = false)
    /\ finalize_calls s'
       = finalize_calls s
         ++ take k (map rag (filter (fun c => initialized c = true) ctxs))
    /\ log s'
       = log s ++ shutdown_errors finalize_storages ctxs (finalize_calls s)
    /\ _contexts s' = _contexts s
    /\ _current_workspace s' = _current_workspace s.
Proof.
  induction ctxs as [|c rest IH]; intros s.
  - exists (Return tt), s, 0. cbn [shutdown_loop shutdown_errors].
    rewrite filter_nil. cbn [map take]. rewrite !app_nil_r. by auto 10.
  - cbn [shutdown_loop shutdown_errors]. rewrite filter_cons.
    destruct (initialized c) eqn:Hinit.
    + rewrite decide_True by done.
      unfold bind, try_except_Exception, await_finalize.
      destruct (finalize_storages (rag c) (finalize_calls s)) as [e|].
      * destruct (is_Exception e) eqn:He.
        -- rewrite logger_run.
           destruct (IH (add_log
                           {| levelname := ERROR;
                              message := "Failed to finalize workspace "
                                           +:+ WorkspaceContext_id c +:+ ": "
                                           +:+ exc_text e |}
                           (add_finalize_call (rag c) s)))
             as (r & s' & k & -> & Hr & Hc & Hl & Hd & Hv).
           exists r, s', (S k). split; [done|]. split; [exact Hr|].
           cbn in Hc, Hl, Hd, Hv. rewrite Hc, Hl, Hd, Hv. cbn [map take].
           by rewrite <- !app_assoc.
        -- exists (Raise e), (add_finalize_call (rag c) s), 1.
           split; [done|]. split; [right; by exists e|].
           cbn [map take]. rewrite take_0, app_nil_r. done.
      * destruct (IH (add_finalize_call (rag c) s))
          as (r & s' & k & -> & Hr & Hc & Hl & Hd & Hv).
        exists r, s', (S k). split; [done|]. split; [exact Hr|].
        cbn in Hc, Hl, Hd, Hv. rewrite Hc, Hl, Hd, Hv. cbn [map take].
        by rewrite <- !app_assoc.
    + rewrite decide_False by done. unfold bind, ret.
      destruct (IH s) as (r & s' & k & -> & Hrest). by exists r, s', k.
Qed.

(** With engines that fail with instances of [Exception] only, the
    sweep returns and makes every call due. *)
Lemma shutdown_loop_run ctxs :
  fails_with_Exception finalize_storages ->
  forall s,
  exists s',
    shutdown_loop finalize_storages ctxs s = (Return tt, s')
    /\ finalize_calls s'
       = finalize_calls s
         ++ map rag (filter (fun c => initialized c = true) ctxs)
    /\ log s'
       = log s ++ shutdown_errors finalize_storages ctxs (finalize_calls s)
    /\ _contexts s' = _contexts s
    /\ _current_workspace s' = _current_workspace s.
Proof.
  intros Hexc. induction ctxs as [|c rest IH]; intros s.
  - exists s. cbn [shutdown_loop shutdown_errors]. rewrite filter_nil.
    cbn [map]. by rewrite !app_nil_r.
  - cbn [shutdown_loop shutdown_errors]. rewrite filter_cons.
    destruct (initialized c) eqn:Hinit.
    + rewrite decide_True by done.
      unfold bind, try_except_Exception, await_finalize.
      destruct (finalize_storages (rag c) (finalize_calls s)) as [e|] eqn:Hf.
      * rewrite (Hexc _ _ _ Hf). rewrite logger_run.
        destruct (IH (add_log
                        {| levelname := ERROR;
                           message := "Failed to finalize workspace "
                                        +:+ WorkspaceContext_id c +:+ ": "
                                        +:+ exc_text e |}
                        (add_finalize_call (rag c) s)))
          as (s' & -> & Hc & Hl & Hd & Hv).
        exists s'. split; [done|]. cbn in Hc, Hl, Hd, Hv.
        rewrite Hc, Hl, Hd, Hv. cbn [map].
        by rewrite <- !app_assoc.
      * destruct (IH (add_finalize_call (rag c) s))
          as (s' & -> & Hc & Hl & Hd & Hv).
        exists s'. split; [done|]. cbn in Hc, Hl, Hd, Hv.
        rewrite Hc, Hl, Hd, Hv. cbn [map].
        by rewrite <- !app_assoc.
    + rewrite decide_False by done. unfold bind, ret.
      destruct (IH s) as (s' & -> & Hc & Hl & Hd & Hv). by exists s'.
Qed.



End ShutdownFacts.




(** ** Summary *)

(** C9, as the code has it.  The summary has the six keys, in this order:
    the config's id; a display name that is the config's display name
    when that is a non-empty string, and the id otherwise; the config's
    description; [enabled], the conjunction of the config's flag and
    "error is None"; and the error and the metadata as they are. *)
Theorem as_dict_summary (self : WorkspaceContext) :
  dict_keys (as_dict self)
  = ["id"; "display_name"; "description"; "enabled"; "error"; "metadata"]
  /\ dict_get "id" (as_dict self) = Some (PyString (id (config self)))
  /\ dict_get "display_name" (as_dict self)
     = Some (PyString match display_name (config self) with
                      | Some name =>
                          if decide (name = EmptyString) then id (config self)
                          else name
                      | None => id (config self)
                      end)
  /\ dict_get "description" (as_dict self)
     = Some (of_optional_str (description (config self)))
  /\ dict_get "enabled" (as_dict self)
     = Some (PyBool (enabled (config self)
                     && bool_decide (error self = None)))
  /\ dict_get "error" (as_dict self) = Some (of_optional_str (error self))
  /\ dict_get "metadata" (as_dict self)
     = Some (PyDict (metadata (config self))).
Proof.
  repeat split; try reflexivity.
  - cbn. do 2 f_equal. by destruct (display_name (config self)) as [[|a n]|].
  - cbn. do 3 f_equal. by destruct (error self).
Qed.

(** C9 as stated fails: a display name that is present and empty is not
    what the summary shows; it shows the id. *)
Lemma as_dict_display_name_as_stated_fails :
  display_name (config ctx_blank_display_name) = Some EmptyString
  /\ dict_get "display_name" (as_dict ctx_blank_display_name)
     = Some (PyString "a")
  /\ dict_get "display_name" (as_dict ctx_blank_display_name)
     <> Some (PyString EmptyString).
Proof. split; [reflexivity|]. split; [reflexivity|discriminate]. Qed.

(** * Further properties *)

(** ** Ids of the aggregate source *)

Section IdFacts.

Lemma contains_lstrip c s : contains c s = false -> contains c (lstrip s) = false.
Proof.
  induction s as [|a r IH]; [done|]. cbn [lstrip].
  destruct (isspace a); [|done].
  cbn [contains]. intros [_ Hr]%orb_false_iff. by apply IH.
Qed.

Lemma contains_rstrip c s : contains c s = false -> contains c (rstrip s) = false.
Proof.
  induction s as [|a r IH]; [done|]. cbn [contains rstrip].
  intros [Ha Hr]%orb_false_iff. specialize (IH Hr).
  destruct (rstrip r) as [|b t].
  - destruct (isspace a); [done|]. cbn [contains]. by rewrite Ha.
  - cbn [contains] in *. by rewrite Ha, IH.
Qed.

Lemma strip_no_blank_ends s : no_blank_ends (strip s) = true.
Proof.
  unfold no_blank_ends.
  destruct (first_char (strip s)) as [a|] eqn:Hfirst; [|done].
  destruct (last_char (strip s)) as [b|] eqn:Hlast; [|done].
  rewrite (strip_ends s a) by auto. by rewrite (strip_ends s b) by auto.
Qed.

Lemma parse_items_ids items :
  Forall (fun piece => contains comma piece = false) items ->
  Forall (fun w => is_workspace_id w = true) (parse_items items).
Proof.
  induction 1 as [|item rest Hitem _ IH]; cbn [parse_items]; [constructor|].
  destruct (truthy (strip item)) eqn:Htruthy; [|exact IH].
  constructor; [|exact IH]. unfold is_workspace_id.
  rewrite Htruthy, strip_no_blank_ends. unfold strip.
  by rewrite (contains_rstrip _ _ (contains_lstrip _ _ Hitem)).
Qed.

Lemma lstrip_fixed w :
  (forall c, first_char w = Some c -> isspace c = false) -> lstrip w = w.
Proof. destruct w as [|a r]; [done|]. intros H. cbn. by rewrite (H a). Qed.

Lemma rstrip_fixed w :
  (forall c, last_char w = Some c -> isspace c = false) -> rstrip w = w.
Proof.
  induction w as [|a r IH]; [done|]. intros H. cbn [rstrip].
  destruct r as [|b t].
  - cbn. by rewrite (H a).
  - rewrite IH; [done|]. intros c Hc. by apply H.
Qed.

Lemma strip_fixed w : no_blank_ends w = true -> strip w = w.
Proof.
  unfold no_blank_ends, strip. intros H.
  destruct w as [|a r]; [done|].
  destruct (last_char (String a r)) as [b|] eqn:Hlast.
  - cbn [first_char] in H. apply andb_true_iff in H as [Ha Hb].
    rewrite lstrip_fixed.
    + apply rstrip_fixed. intros c Hc. rewrite Hlast in Hc.
      injection Hc as <-. by destruct (isspace b).
    + intros c [= <-]. by destruct (isspace a).
  - exfalso. clear H. revert a Hlast.
    induction r as [|b t IH]; intros a; [done|]. apply (IH b).
Qed.

Lemma split_piece sep p : contains sep p = false -> split sep p = [p].
Proof.
  induction p as [|a r IH]; [done|]. cbn [contains split].
  intros [Ha Hr]%orb_false_iff. apply bool_decide_eq_false in Ha.
  rewrite decide_False by done. by rewrite (IH Hr).
Qed.

Lemma split_append sep p rest :
  contains sep p = false ->
  split sep (p +:+ String sep rest) = p :: split sep rest.
Proof.
  induction p as [|a r IH].
  - intros _. rewrite append_empty_l. cbn [split]. by rewrite decide_True.
  - cbn [contains]. intros [Ha Hr]%orb_false_iff.
    apply bool_decide_eq_false in Ha.
    rewrite append_cons. cbn [split]. rewrite decide_False by done.
    by rewrite (IH Hr).
Qed.

(** Splitting what was joined gives the pieces back, when no piece
    holds the separator. *)
Lemma split_join sep pieces :
  pieces <> [] ->
  Forall (fun piece => contains sep piece = false) pieces ->
  split sep (join sep pieces) = pieces.
Proof.
  intros Hne Hall. induction Hall as [|p ps Hp Hps IH]; [done|].
  destruct ps as [|q qs].
  - by apply split_piece.
  - rewrite join_cons, (split_append _ _ _ Hp). f_equal. by apply IH.
Qed.

Lemma parse_items_fixed ids :
  Forall (fun w => is_workspace_id w = true) ids -> parse_items ids = ids.
Proof.
  induction 1 as [|w ws Hw _ IH]; [done|]. cbn [parse_items].
  unfold is_workspace_id in Hw.
  apply andb_true_iff in Hw as [[Htruthy _]%andb_true_iff Hends].
  by rewrite (strip_fixed w Hends), Htruthy, IH.
Qed.

Lemma is_workspace_id_no_comma ids :
  Forall (fun w => is_workspace_id w = true) ids ->
  Forall (fun piece => contains comma piece = false) ids.
Proof.
  intros Hids. eapply Forall_impl; [exact Hids|].
  intros w Hw. unfold is_workspace_id in Hw.
  apply andb_true_iff in Hw as [[_ Hc]%andb_true_iff _].
  by destruct (contains comma w).
Qed.

Lemma parse_join ids :
  Forall (fun w => is_workspace_id w = true) ids ->
  _parse_workspace_ids (join comma ids) = ids.
Proof.
  intros Hids. unfold _parse_workspace_ids.
  destruct ids as [|w ws]; [done|].
  rewrite split_join; [by apply parse_items_fixed|done|].
  by apply is_workspace_id_no_comma.
Qed.

End IdFacts.

(** X1.  Every id the generator yields, whatever the raw string, is not
    empty, holds no comma and neither starts nor ends with a blank. *)
Theorem parse_workspace_ids_shape (raw_ids : string) :
  Forall (fun w => is_workspace_id w = true) (_parse_workspace_ids raw_ids).
Proof. apply parse_items_ids, split_no_sep. Qed.

(** X2.  Ids of that shape, joined with commas, are read back as they
    are; written to [WORKSPACES] without repetition they give one
    minimal config each, in order, whatever [args] is. *)
Theorem aggregate_round_trip (ids : list string) :
  Forall (fun w => is_workspace_id w = true) ids ->
  _parse_workspace_ids (join comma ids) = ids
  /\ (ids <> [] -> NoDup ids ->
      forall environ args s,
        getenv environ "WORKSPACES" = Some (join comma ids) ->
        fst (load_workspace_configs environ args s)
        = Return (map WorkspaceConfig_of_id ids)).
Proof.
  intros Hids. split; [by apply parse_join|].
  intros Hne Hnd environ args s Henv.
  rewrite load_workspace_configs_value, (aggregate_ids_lookup _ _ Henv).
  rewrite (parse_join _ Hids). destruct ids as [|w ws]; [done|].
  f_equal. apply keep_first_id.
  replace (id <$> map WorkspaceConfig_of_id (w :: ws)) with (w :: ws); [done|].
  clear. generalize (w :: ws). intros l.
  induction l as [|x l IH]; [done|]. cbn. by rewrite <- IH.
Qed.

Lemma aggregate_round_trip_witness :
  _parse_workspace_ids (join comma ["alpha"; "b c"; "d"]) = ["alpha"; "b c"; "d"]
  /\ fst (load_workspace_configs {[ "WORKSPACES" := "alpha,b c,d" ]}
            {| workspace := Some "ignored" |} init_state)
     = Return (map WorkspaceConfig_of_id ["alpha"; "b c"; "d"]).
Proof.
  assert (Hids : Forall (fun w => is_workspace_id w = true)
                   ["alpha"; "b c"; "d"]) by (repeat constructor).
  destruct (aggregate_round_trip ["alpha"; "b c"; "d"] Hids) as [Hparse Hload].
  split; [exact Hparse|].
  apply Hload; [discriminate| |reflexivity].
  repeat constructor; set_solver.
Defined.

(** ** More on the configuration parser *)

Section LoaderFacts.

Lemma keep_first_Forall {A} (key : A -> string) (P : A -> Prop) (l : list A) :
  Forall P l -> Forall P (keep_first key l).
Proof.
  rewrite !Forall_forall. intros H x Hx. apply H.
  eapply elem_of_sublist; [exact Hx|apply keep_first_sublist].
Qed.

Lemma aggregate_ids_shape environ :
  Forall (fun w => is_workspace_id w = true) (aggregate_ids environ).
Proof.
  unfold aggregate_ids. destruct (getenv environ "WORKSPACES"); [|constructor].
  apply parse_items_ids, split_no_sep.
Qed.

Lemma fallback_id_shape environ args :
  truthy (fallback_id environ args) = true
  /\ no_blank_ends (fallback_id environ args) = true.
Proof.
  unfold fallback_id, or_default. case_decide as Hempty; [done|].
  split; [|apply strip_no_blank_ends]. by destruct (strip _).
Qed.

(** What the loop adds to the log are warnings, one for every config it
    drops. *)
Lemma unique_loop_log configs : forall seen unique_configs s,
  exists added,
    log (snd (unique_loop configs seen unique_configs s)) = log s ++ added
    /\ Forall (fun r => levelname r = WARNING) added
    /\ forall result,
         fst (unique_loop configs seen unique_configs s) = Return result ->
         length added + length result
         = length unique_configs + length configs.
Proof.
  induction configs as [|cfg rest IH]; intros seen acc s.
  - exists []. cbn. rewrite app_nil_r. split; [done|]. split; [done|].
    intros result [= <-]. lia.
  - cbn [unique_loop]. case_decide.
    + unfold bind. rewrite logger_run.
      destruct (IH seen acc (add_log
                               {| levelname := WARNING;
                                  message := "Duplicate workspace id detected: "
                                               +:+ id cfg |} s))
        as (added & Hlog & Hwarn & Hlen).
      eexists (_ :: added). cbn [log add_log] in Hlog.
      rewrite <- app_assoc in Hlog. split; [exact Hlog|].
      split; [by constructor|].
      intros result Hres. specialize (Hlen result Hres). cbn [length]. lia.
    + destruct (IH ({[id cfg]} ∪ seen) (acc ++ [cfg]) s)
        as (added & Hlog & Hwarn & Hlen).
      exists added. split; [done|]. split; [done|].
      intros result Hres. specialize (Hlen result Hres).
      rewrite length_app in Hlen. cbn [length] in *. lia.
Qed.

Lemma pair_eta {A B} (p : A * B) : p = (fst p, snd p).
Proof. by destruct p. Qed.

(** The function is the deduplication loop run on the candidate configs,
    after at most one warning of its own. *)
Lemma load_workspace_configs_run environ args s :
  exists s0 pre,
    load_workspace_configs environ args s
    = unique_loop
        match aggregate_ids environ with
        | [] => [WorkspaceConfig_of_id (fallback_id environ args)]
        | (_ :: _) as ids => map WorkspaceConfig_of_id ids
        end ∅ [] s0
    /\ log s0 = log s ++ pre
    /\ Forall (fun r => levelname r = WARNING) pre
    /\ _contexts s0 = _contexts s
    /\ _current_workspace s0 = _current_workspace s
    /\ finalize_calls s0 = finalize_calls s
    /\ length pre
       = match aggregate_ids environ with
         | [] => match getenv environ "WORKSPACES" with
                 | Some (String _ _) => 1
                 | _ => 0
                 end
         | _ :: _ => 0
         end.
Proof.
  unfold load_workspace_configs, aggregate_ids, fallback_id.
  rewrite <- py_or_default.
  destruct (getenv environ "WORKSPACES") as [[|a raw]|]; cbn [truthy].
  - exists s, []. rewrite app_nil_r. by repeat split.
  - destruct (_parse_workspace_ids (String a raw)) as [|w ws].
    + eexists (add_log _ s), [_]. split; [reflexivity|].
      split; [reflexivity|]. split; [by repeat constructor|]. done.
    + exists s, []. rewrite app_nil_r. by repeat split.
  - exists s, []. rewrite app_nil_r. by repeat split.
Qed.

End LoaderFacts.

(** X3.  Every config [load_workspace_configs] returns is a minimal one
    (all fields but the id at their defaults), and its id is not empty
    and neither starts nor ends with a blank. *)
Theorem load_workspace_configs_minimal environ args s configs :
  fst (load_workspace_configs environ args s) = Return configs ->
  Forall (fun cfg => cfg = WorkspaceConfig_of_id (id cfg)
                     /\ truthy (id cfg) = true
                     /\ no_blank_ends (id cfg) = true) configs.
Proof.
  rewrite load_workspace_configs_value. intros [= <-].
  apply keep_first_Forall.
  pose proof (aggregate_ids_shape environ) as Hshape.
  destruct (aggregate_ids environ) as [|w ws].
  - constructor; [|constructor].
    split; [done|]. apply fallback_id_shape.
  - change (WorkspaceConfig_of_id w :: map WorkspaceConfig_of_id ws)
      with (map WorkspaceConfig_of_id (w :: ws)).
    revert Hshape. generalize (w :: ws). clear. intros l Hl.
    induction Hl as [|x l Hx _ IH]; [constructor|].
    cbn [map]. constructor; [|exact IH]. cbn [id WorkspaceConfig_of_id].
    unfold is_workspace_id in Hx.
    apply andb_true_iff in Hx as [[Ht _]%andb_true_iff He]. done.
Qed.

Lemma load_workspace_configs_minimal_witness :
  Forall (fun cfg => cfg = WorkspaceConfig_of_id (id cfg)
                     /\ truthy (id cfg) = true
                     /\ no_blank_ends (id cfg) = true)
    [WorkspaceConfig_of_id "docs"].
Proof.
  apply (load_workspace_configs_minimal
           ∅ {| workspace := Some "  docs " |} init_state).
  reflexivity.
Defined.

(** X4.  When the aggregate source yields at least one id, the result
    depends on nothing else: neither on [args.workspace] nor on the rest
    of the environment. *)
Theorem aggregate_source_has_priority environ environ' args args' s s' :
  aggregate_ids environ <> [] ->
  getenv environ' "WORKSPACES" = getenv environ "WORKSPACES" ->
  fst (load_workspace_configs environ' args' s')
  = fst (load_workspace_configs environ args s).
Proof.
  intros Hne Henv. rewrite !load_workspace_configs_value.
  assert (aggregate_ids environ' = aggregate_ids environ) as ->.
  { unfold aggregate_ids. by rewrite Henv. }
  by destruct (aggregate_ids environ).
Qed.

Lemma aggregate_source_has_priority_witness :
  fst (load_workspace_configs
         {[ "WORKSPACES" := "x, y"; "WORKSPACE" := "z" ]}
         {| workspace := Some "w" |} init_state)
  = fst (load_workspace_configs {[ "WORKSPACES" := "x, y" ]}
           {| workspace := None |} init_state).
Proof.
  apply aggregate_source_has_priority; [discriminate|reflexivity].
Defined.

(** X5.  [load_workspace_configs] writes only warnings to the log and
    touches nothing else of the state.  When the aggregate source yields
    ids, there is one warning for every id dropped as a duplicate; when
    it yields none, there is one warning if [WORKSPACES] holds a
    non-empty string, and none otherwise. *)
Theorem load_workspace_configs_log environ args s :
  exists configs added s',
    load_workspace_configs environ args s = (Return configs, s')
    /\ log s' = log s ++ added
    /\ Forall (fun r => levelname r = WARNING) added
    /\ _contexts s' = _contexts s
    /\ _current_workspace s' = _current_workspace s
    /\ finalize_calls s' = finalize_calls s
    /\ match aggregate_ids environ with
       | [] =>
           length added
           = match getenv environ "WORKSPACES" with
             | Some (String _ _) => 1
             | _ => 0
             end
       | (_ :: _) as ids => length added + length configs = length ids
       end.
Proof.
  destruct (load_workspace_configs_run environ args s)
    as (s0 & pre & Hrun & Hs0 & Hpre & Hd0 & Hv0 & Hc0 & Hlen0).
  rewrite Hrun.
  set (candidates := match aggregate_ids environ with
                     | [] => _
                     | _ :: _ => _
                     end) in *.
  destruct (unique_loop_log candidates ∅ [] s0) as (added & Hlog & Hwarn & Hlen).
  destruct (unique_loop_state candidates ∅ [] s0) as (Hd & Hv & Hc).
  pose proof (unique_loop_fresh candidates s0) as Hres.
  specialize (Hlen _ Hres). cbn [length] in Hlen.
  exists (keep_first id candidates), (pre ++ added), (snd (unique_loop candidates ∅ [] s0)).
  split; [by rewrite <- Hres, <- pair_eta|].
  split; [by rewrite Hlog, Hs0, app_assoc|].
  split; [by apply Forall_app|].
  split; [congruence|]. split; [congruence|]. split; [congruence|].
  rewrite length_app. subst candidates.
  destruct (aggregate_ids environ) as [|w ws].
  - cbn in Hlen. rewrite Hlen0. lia.
  - rewrite length_map in Hlen. rewrite Hlen0. cbn [length] in *. lia.
Qed.

(** ** More on the registry *)

Section RegistryMore.

Lemma dict_setitem_twice {V} k (v : V) d :
  dict_setitem k v (dict_setitem k v d) = dict_setitem k v d.
Proof.
  induction d as [|[k0 v0] d IH]; cbn [dict_setitem].
  - by rewrite decide_True.
  - destruct (decide (k = k0)) as [->|Hne]; cbn [dict_setitem].
    + by rewrite decide_True.
    + by rewrite decide_False, IH.
Qed.

Lemma dict_contains_setitem {V} k (v : V) d :
  dict_contains k (dict_setitem k v d) = true.
Proof. unfold dict_contains. by rewrite dict_get_setitem_eq. Qed.

(** What one [register] call writes to the log. *)
Lemma register_log ctx s :
  log (snd (register ctx s))
  = log s
    ++ (if dict_contains (WorkspaceContext_id ctx) (_contexts s)
        then [{| levelname := WARNING;
                 message := "Workspace " +:+ WorkspaceContext_id ctx
                              +:+ " already registered, overriding" |}]
        else [])
    ++ [{| levelname := INFO;
           message := "Registered workspace: " +:+ WorkspaceContext_id ctx |}].
Proof.
  unfold register, bind, read_contexts. cbv beta iota.
  destruct (dict_contains (WorkspaceContext_id ctx) (_contexts s));
    cbv beta iota delta [ret logger contexts_setitem]; cbn;
    by rewrite <- ?app_assoc.
Qed.

Lemma count_level_app lvl l1 l2 :
  count_level lvl (l1 ++ l2) = count_level lvl l1 + count_level lvl l2.
Proof. unfold count_level. by rewrite filter_app, length_app. Qed.

Lemma count_level_single lvl r :
  count_level lvl [r] = if level_eqb (levelname r) lvl then 1 else 0.
Proof.
  unfold count_level. rewrite filter_cons, filter_nil.
  by destruct (level_eqb (levelname r) lvl).
Qed.

Lemma count_level_nil lvl : count_level lvl [] = 0.
Proof. reflexivity. Qed.

Lemma register_all_cons c rest s :
  snd (register_all (c :: rest) s) = snd (register_all rest (snd (register c s))).
Proof.
  cbn [register_all]. unfold bind.
  by destruct (register_run c s) as (s' & -> & _).
Qed.

Lemma register_all_counts ctxs : forall s,
  let s' := snd (register_all ctxs s) in
  count_level INFO (log s') = count_level INFO (log s) + length ctxs
  /\ count_level WARNING (log s') + length (_contexts s')
     = count_level WARNING (log s) + length (_contexts s) + length ctxs
  /\ count_level ERROR (log s') = count_level ERROR (log s).
Proof.
  induction ctxs as [|c rest IH]; intros s; cbn zeta.
  - cbn. lia.
  - rewrite register_all_cons.
    destruct (IH (snd (register c s))) as (Hinfo & Hwarn & Herr).
    rewrite register_log in Hinfo, Hwarn, Herr.
    rewrite register_contexts, dict_setitem_length in Hwarn.
    rewrite !count_level_app in Hinfo, Hwarn, Herr.
    cbn [length].
    destruct (dict_contains (WorkspaceContext_id c) (_contexts s));
      rewrite ?count_level_single, ?count_level_nil in Hinfo, Hwarn, Herr;
      cbn [levelname level_eqb] in Hinfo, Hwarn, Herr; lia.
Qed.

(** The keys after a sequence of assignments: those that were there,
    then the new ones in the order of their first assignment. *)
Lemma assign_all_keys ctxs : forall d,
  dict_keys (assign_all ctxs d)
  = dict_keys d
    ++ filter (fun k => k ∉ dict_keys d)
         (keep_first (fun k => k) (map WorkspaceContext_id ctxs)).
Proof.
  induction ctxs as [|c rest IH]; intros d.
  - cbn. by rewrite app_nil_r.
  - cbn [assign_all fold_left map keep_first]. fold (assign_all rest).
    rewrite IH, dict_keys_setitem.
    destruct (dict_contains (WorkspaceContext_id c) d) eqn:Hc.
    + apply dict_contains_keys in Hc.
      rewrite filter_cons_False by (intros Hn; by apply Hn).
      f_equal. rewrite list_filter_filter. apply list_filter_iff.
      intros k. split; [|tauto]. intros Hk. split; [done|]. by intros ->.
    + assert (WorkspaceContext_id c ∉ dict_keys d) as Hn.
      { intros Hin. apply dict_contains_keys in Hin. congruence. }
      rewrite filter_cons_True by done. rewrite <- app_assoc. cbn [app].
      do 2 f_equal. rewrite list_filter_filter. apply list_filter_iff.
      intros k. rewrite not_elem_of_app, list_elem_of_singleton. tauto.
Qed.

Lemma values_ids (d : dict WorkspaceContext) :
  Forall key_is_id d -> map WorkspaceContext_id (dict_values d) = dict_keys d.
Proof.
  induction 1 as [|[k c] d Hk _ IH]; [done|].
  cbn. unfold key_is_id in Hk. cbn in Hk. rewrite Hk. f_equal. exact IH.
Qed.

Lemma last_registered_None i ctxs :
  last_registered i ctxs = None <-> i ∉ map WorkspaceContext_id ctxs.
Proof.
  induction ctxs as [|c rest IH]; cbn [last_registered map].
  - split; [intros _; apply not_elem_of_nil|done].
  - rewrite not_elem_of_cons, <- IH.
    destruct (last_registered i rest); [naive_solver|].
    case_decide; naive_solver.
Qed.

End RegistryMore.

(** X6.  [register(ctx)] does not change what [get] finds under any
    other id, and touches neither the current-workspace variable nor the
    finalize record. *)
Theorem register_frame (ctx : WorkspaceContext) (s : State) (i : string) :
  i <> WorkspaceContext_id ctx ->
  fst (get i (snd (register ctx s))) = fst (get i s)
  /\ _current_workspace (snd (register ctx s)) = _current_workspace s
  /\ finalize_calls (snd (register ctx s)) = finalize_calls s.
Proof.
  intros Hne. rewrite !get_run. cbn [fst].
  destruct (register_run ctx s) as (s' & -> & Hd & Hv & Hc). cbn [snd].
  rewrite Hd, dict_get_setitem_ne by done. done.
Qed.

Lemma register_frame_witness :
  fst (get "outer" (snd (register ctx_inner (registry_after [ctx_outer]))))
  = Return (Some ctx_outer).
Proof.
  rewrite (proj1 (register_frame ctx_inner (registry_after [ctx_outer])
                    "outer" ltac:(discriminate))).
  reflexivity.
Defined.

(** X7.  After any sequence of [register] calls on a new registry,
    [list()] returns one context for every id registered, in the order
    in which the ids were registered first, and each of them is the
    context registered last under its id. *)
Theorem list_contexts_order (ctxs : list WorkspaceContext) :
  exists l,
    fst (list_contexts (registry_after ctxs)) = Return l
    /\ map WorkspaceContext_id l
       = keep_first (fun i => i) (map WorkspaceContext_id ctxs)
    /\ Forall (fun c => last_registered (WorkspaceContext_id c) ctxs = Some c) l.
Proof.
  exists (dict_values (_contexts (registry_after ctxs))).
  split; [by rewrite list_contexts_run|].
  destruct (registry_after_wf ctxs) as [Hnd Hkey]. split.
  - rewrite (values_ids _ Hkey), registry_after_contexts, assign_all_keys.
    cbn [dict_keys map app]. apply filter_all, Forall_forall.
    intros k _. apply not_elem_of_nil.
  - rewrite Forall_forall. intros c Hin. unfold dict_values in Hin.
    apply list_elem_of_fmap in Hin as [[k c'] [-> Hkv]]. cbn [snd].
    rewrite Forall_forall in Hkey. pose proof (Hkey _ Hkv) as Hk.
    unfold key_is_id in Hk. cbn [fst snd] in Hk.
    rewrite <- registry_after_get, <- Hk.
    by apply (dict_get_elem_of _ _ _ Hnd).
Qed.

(** X8.  After any sequence of [register] calls on a new registry the
    log holds one info record per call, one warning per call that
    replaced an entry (the calls minus the entries held) and no error. *)
Theorem register_log_counts (ctxs : list WorkspaceContext) :
  let s := registry_after ctxs in
  count_level INFO (log s) = length ctxs
  /\ count_level WARNING (log s) + length (_contexts s) = length ctxs
  /\ count_level ERROR (log s) = 0.
Proof.
  destruct (register_all_counts ctxs init_state) as (Hinfo & Hwarn & Herr).
  cbn zeta. unfold registry_after. rewrite Hinfo, Hwarn, Herr. by cbn.
Qed.

(** X9.  Registering the same context a second time leaves the registry
    as the first call left it; the second call logs the override warning
    and the info record. *)
Theorem register_idempotent (ctx : WorkspaceContext) (s : State) :
  let s1 := snd (register ctx s) in
  let s2 := snd (register ctx s1) in
  _contexts s2 = _contexts s1
  /\ log s2
     = log s1
       ++ [{| levelname := WARNING;
              message := "Workspace " +:+ WorkspaceContext_id ctx
                           +:+ " already registered, overriding" |};
           {| levelname := INFO;
              message := "Registered workspace: " +:+ WorkspaceContext_id ctx |}].
Proof.
  cbn zeta. split.
  - by rewrite !register_contexts, dict_setitem_twice.
  - rewrite (register_log ctx (snd (register ctx s))).
    by rewrite register_contexts, dict_contains_setitem.
Qed.

(** X10.  After any sequence of [register] calls on a new registry,
    [get(i)] is absent exactly when no call registered a context with id
    [i]; binding such an id fails with the 404 condition "not found" and
    changes nothing. *)
Theorem unregistered_id (ctxs : list WorkspaceContext) (i : string) :
  (fst (get i (registry_after ctxs)) = Return None
   <-> i ∉ map WorkspaceContext_id ctxs)
  /\ (i ∉ map WorkspaceContext_id ctxs ->
      _apply_enter i (registry_after ctxs)
      = (Raise (HTTPException 404 (not_found_detail i)), registry_after ctxs)).
Proof.
  rewrite get_run. cbn [fst]. rewrite registry_after_get. split.
  - rewrite <- last_registered_None. split; [by intros [= ->]|by intros ->].
  - intros Hi. apply enter_unknown. rewrite registry_after_get.
    by apply last_registered_None.
Qed.

Lemma unregistered_id_witness :
  _apply_enter "nowhere" (registry_after [ctx_outer; ctx_inner])
  = (Raise (HTTPException 404 (not_found_detail "nowhere")),
     registry_after [ctx_outer; ctx_inner]).
Proof.
  apply (proj2 (unregistered_id [ctx_outer; ctx_inner] "nowhere")).
  cbn. set_solver.
Defined.

(** ** More on request scoping *)

Section ScopingMore.

Lemma available_accepts ctx :
  available ctx ->
  negb (enabled (config ctx)) || optional_truthy (error ctx) = false.
Proof. intros [-> ->]. reflexivity. Qed.

Lemma set_current_same s : set_current (_current_workspace s) s = s.
Proof. by destruct s. Qed.

Lemma set_current_twice v w s : set_current v (set_current w s) = set_current v s.
Proof. reflexivity. Qed.

(** A request on an accepted context: the handler runs with the context
    bound, its outcome is the outcome of the request, and the variable
    is put back. *)
Lemma run_request_bound {A} workspace_id (handler : WorkspaceContext -> M A)
    s ctx :
  dict_get workspace_id (_contexts s) = Some ctx ->
  negb (enabled (config ctx)) || optional_truthy (error ctx) = false ->
  run_request workspace_id handler s
  = (fst (handler ctx (set_current (Some ctx) s)),
     set_current (_current_workspace s)
       (snd (handler ctx (set_current (Some ctx) s)))).
Proof.
  intros Hget Hav. unfold run_request.
  rewrite (enter_bound _ _ _ Hget Hav).
  destruct (handler ctx (set_current (Some ctx) s)) as [r s2].
  rewrite exit_run. cbn [fst snd old_value].
  by destruct r.
Qed.

Lemma get_current_workspace_bound ctx s :
  get_current_workspace (set_current (Some ctx) s)
  = (Return ctx, set_current (Some ctx) s).
Proof. reflexivity. Qed.

End ScopingMore.

(** X11.  The entry of the dependency either fails, and then with the
    404 condition and without any change of state, or succeeds, and
    then it has changed the current-workspace variable only, and the
    token holds the value the variable had. *)
Theorem apply_enter_effects (workspace_id : string) (s : State) :
  match _apply_enter workspace_id s with
  | (Raise e, s1) => s1 = s /\ exists detail, e = HTTPException 404 detail
  | (Return (ctx, token), s1) =>
      s1 = set_current (Some ctx) s
      /\ old_value token = _current_workspace s
      /\ _contexts s1 = _contexts s
      /\ log s1 = log s
      /\ finalize_calls s1 = finalize_calls s
  end.
Proof.
  destruct (dict_get workspace_id (_contexts s)) as [c|] eqn:Hget.
  - destruct (negb (enabled (config c)) || optional_truthy (error c)) eqn:Hun.
    + rewrite (enter_unavailable _ _ _ Hget Hun). eauto.
    + by rewrite (enter_bound _ _ _ Hget Hun).
  - rewrite (enter_unknown _ _ Hget). eauto.
Qed.

(** X13.  A scope opened inside another one: inside the inner scope the
    current workspace is the inner context, after it the outer context
    again, and when the outer request is over the state is as before. *)
Theorem nested_requests (s : State) (outer_id inner_id : string)
    (outer inner : WorkspaceContext) :
  fst (get outer_id s) = Return (Some outer) -> available outer ->
  fst (get inner_id s) = Return (Some inner) -> available inner ->
  run_request outer_id (nested_handler inner_id) s
  = (Return (inner, outer), s).
Proof.
  rewrite !get_run. cbn [fst]. intros [= Ho] Hao [= Hi] Hai.
  rewrite (run_request_bound _ _ _ _ Ho (available_accepts _ Hao)).
  unfold nested_handler, bind.
  rewrite (run_request_bound inner_id _ (set_current (Some outer) s) inner)
    by (try apply available_accepts; done).
  rewrite set_current_twice, get_current_workspace_bound. cbn [fst snd].
  cbn [_current_workspace set_current]. fold (set_current (Some outer) s).
  rewrite get_current_workspace_bound. unfold ret. cbn [fst snd].
  by rewrite !set_current_twice, set_current_same.
Qed.

Lemma nested_requests_witness :
  run_request "outer" (nested_handler "inner")
    (registry_after [ctx_outer; ctx_inner])
  = (Return (ctx_inner, ctx_outer), registry_after [ctx_outer; ctx_inner]).
Proof.
  apply nested_requests; (reflexivity || (split; reflexivity)).
Defined.

(** X14.  A registered context that its summary reports as enabled is
    accepted by the dependency under its id. *)
Theorem summary_enabled_binds (s : State) (workspace_id : string)
    (ctx : WorkspaceContext) :
  fst (get workspace_id s) = Return (Some ctx) ->
  dict_get "enabled" (as_dict ctx) = Some (PyBool true) ->
  exists token,
    _apply_enter workspace_id s = (Return (ctx, token), set_current (Some ctx) s).
Proof.
  rewrite get_run. cbn [fst]. intros [= Hget] Hsum.
  cbn in Hsum. injection Hsum as Hsum.
  apply andb_true_iff in Hsum as [Hen Herr].
  eexists. apply (enter_bound _ _ _ Hget).
  rewrite Hen. by destruct (error ctx).
Qed.

Lemma summary_enabled_binds_witness :
  exists token,
    _apply_enter "outer" (registry_after [ctx_outer])
    = (Return (ctx_outer, token),
       set_current (Some ctx_outer) (registry_after [ctx_outer])).
Proof.
  apply summary_enabled_binds; reflexivity.
Defined.

(** ** More on the shutdown *)

Section ShutdownMore.
Variable finalize_storages : ObjRef -> list ObjRef -> option Exc.

Lemma shutdown_loop_idle ctxs s :
  Forall (fun c => initialized c = false) ctxs ->
  shutdown_loop finalize_storages ctxs s = (Return tt, s).
Proof.
  induction 1 as [|c rest Hc _ IH]; [done|].
  cbn [shutdown_loop]. rewrite Hc. unfold bind, ret. exact IH.
Qed.

Lemma shutdown_errors_facts ctxs : forall earlier,
  Forall (fun r => levelname r = ERROR)
    (shutdown_errors finalize_storages ctxs earlier)
  /\ length (shutdown_errors finalize_storages ctxs earlier)
     <= length (filter (fun c => initialized c = true) ctxs)
  /\ ((forall o calls, finalize_storages o calls = None) ->
      shutdown_errors finalize_storages ctxs earlier = []).
Proof.
  induction ctxs as [|c rest IH]; intros earlier.
  - cbn. split; [constructor|]. split; [lia|done].
  - cbn [shutdown_errors]. rewrite filter_cons.
    destruct (initialized c).
    + rewrite decide_True by done.
      destruct (IH (earlier ++ [rag c])) as (Hl & Hn & Hnone).
      destruct (finalize_storages (rag c) earlier) as [e|] eqn:Hf.
      * destruct (is_Exception e).
        -- split; [by constructor|]. split; [cbn [length]; lia|].
           intros Hall. by rewrite Hall in Hf.
        -- split; [constructor|]. split; [cbn [length]; lia|done].
      * split; [done|]. split; [cbn [length]; lia|done].
    + rewrite decide_False by done. apply IH.
Qed.

End ShutdownMore.

(** X15.  On a registry without initialized context, the empty registry
    included, [shutdown_all] returns and changes nothing: no finalize
    call, no log record. *)
Theorem shutdown_all_idle
    (finalize_storages : ObjRef -> list ObjRef -> option Exc) (s : State) :
  Forall (fun c => initialized c = false) (dict_values (_contexts s)) ->
  shutdown_all finalize_storages s = (Return tt, s).
Proof.
  intros Hidle. unfold shutdown_all, bind. rewrite list_contexts_run.
  by apply shutdown_loop_idle.
Qed.

Lemma shutdown_all_idle_witness :
  shutdown_all finalize_cancelled_on_2
    (registry_after [sample_context "a" true false None 2])
  = (Return tt, registry_after [sample_context "a" true false None 2]).
Proof.
  apply shutdown_all_idle. repeat constructor.
Defined.

(** X16.  [shutdown_all] leaves the registry and the [initialized] flags
    as they are, whatever the engines do; so, when every failure of a
    finalize is an instance of [Exception], a second sweep returns as
    the first did and calls finalize on the same engines once more. *)
Theorem shutdown_all_twice
    (finalize_storages : ObjRef -> list ObjRef -> option Exc) (s : State) :
  let s1 := snd (shutdown_all finalize_storages s) in
  let s2 := snd (shutdown_all finalize_storages s1) in
  _contexts s1 = _contexts s
  /\ (fails_with_Exception finalize_storages ->
      fst (shutdown_all finalize_storages s) = Return tt
      /\ fst (shutdown_all finalize_storages s1) = Return tt
      /\ finalize_calls s2
         = finalize_calls s ++ engines_to_finalize s ++ engines_to_finalize s).
Proof.
  cbn zeta. unfold shutdown_all, bind, engines_to_finalize.
  rewrite list_contexts_run. split.
  - by destruct (shutdown_loop_any finalize_storages
                   (dict_values (_contexts s)) s)
      as (r & s1 & k & -> & _ & _ & _ & Hd & _).
  - intros Hexc.
    destruct (shutdown_loop_run finalize_storages
                (dict_values (_contexts s)) Hexc s)
      as (s1 & -> & Hc1 & _ & Hd1 & _).
    cbn [fst snd]. rewrite list_contexts_run.
    destruct (shutdown_loop_run finalize_storages
                (dict_values (_contexts s1)) Hexc s1)
      as (s2 & -> & Hc2 & _ & _ & _).
    cbn [fst snd]. rewrite Hc2, Hc1, Hd1. by rewrite <- app_assoc.
Qed.

Lemma shutdown_all_twice_witness :
  fails_with_Exception finalize_fails_on_2
  /\ finalize_calls
       (snd (shutdown_all finalize_fails_on_2
               (snd (shutdown_all finalize_fails_on_2 three_workspaces))))
     = [1; 2; 3; 1; 2; 3].
Proof.
  assert (Hexc : fails_with_Exception finalize_fails_on_2).
  { intros o earlier e. unfold finalize_fails_on_2.
    destruct (decide (o = 2)); [|discriminate]. by intros [= <-]. }
  split; [exact Hexc|].
  destruct (proj2 (shutdown_all_twice finalize_fails_on_2 three_workspaces) Hexc)
    as (_ & _ & Hcalls).
  rewrite Hcalls. reflexivity.
Defined.

(** X17.  What [shutdown_all] adds to the log are error records, at most
    one for every initialized context, and none at all when every
    finalize returns. *)
Theorem shutdown_all_log
    (finalize_storages : ObjRef -> list ObjRef -> option Exc) (s : State) :
  exists added,
    log (snd (shutdown_all finalize_storages s)) = log s ++ added
    /\ Forall (fun r => levelname r = ERROR) added
    /\ length added <= length (engines_to_finalize s)
    /\ ((forall o calls, finalize_storages o calls = None) -> added = []).
Proof.
  unfold shutdown_all, bind, engines_to_finalize. rewrite list_contexts_run.
  destruct (shutdown_loop_any finalize_storages
              (dict_values (_contexts s)) s)
    as (r & s1 & k & -> & _ & _ & Hl & _ & _).
  destruct (shutdown_errors_facts finalize_storages
              (dict_values (_contexts s)) (finalize_calls s))
    as (Herr & Hlen & Hnone).
  eexists. split; [exact Hl|]. split; [done|]. split; [|done].
  by rewrite length_map.
Qed.

Lemma shutdown_all_log_witness :
  log (snd (shutdown_all finalize_always_returns
              (registry_after [ctx_outer; ctx_inner])))
  = log (registry_after [ctx_outer; ctx_inner]).
Proof.
  destruct (shutdown_all_log finalize_always_returns
              (registry_after [ctx_outer; ctx_inner]))
    as (added & Hlog & _ & _ & Hnone).
  rewrite Hlog, Hnone; [by rewrite app_nil_r|reflexivity].
Defined.

(** ** From the configuration to a bound request *)

Section EndToEnd.

Lemma loaded_configs_facts environ args s configs :
  fst (load_workspace_configs environ args s) = Return configs ->
  NoDup (id <$> configs) /\ Forall (fun cfg => enabled cfg = true) configs.
Proof.
  rewrite load_workspace_configs_value. intros [= <-].
  split; [apply keep_first_NoDup|]. apply keep_first_Forall.
  destruct (aggregate_ids environ) as [|w ws]; [by repeat constructor|].
  change (WorkspaceConfig_of_id w :: map WorkspaceConfig_of_id ws)
    with (map WorkspaceConfig_of_id (w :: ws)).
  generalize (w :: ws). intros l. induction l; by constructor.
Qed.

Lemma last_registered_NoDup ctxs c :
  NoDup (map WorkspaceContext_id ctxs) -> c ∈ ctxs ->
  last_registered (WorkspaceContext_id c) ctxs = Some c.
Proof.
  induction ctxs as [|x rest IH]; [by intros _ ?%elem_of_nil|].
  cbn [map last_registered].
  intros [Hx Hrest]%NoDup_cons [->|Hin]%elem_of_cons.
  - apply last_registered_None in Hx. rewrite Hx. by rewrite decide_True.
  - by rewrite (IH Hrest Hin).
Qed.

Lemma map_ids_of_built (build : WorkspaceConfig -> WorkspaceContext) configs :
  (forall cfg, config (build cfg) = cfg) ->
  map WorkspaceContext_id (map build configs) = id <$> configs.
Proof.
  intros Hb. induction configs as [|cfg rest IH]; [done|].
  cbn. unfold WorkspaceContext_id at 1. by rewrite Hb, <- IH.
Qed.

Lemma dict_keys_length {V} (d : dict V) : length (dict_keys d) = length d.
Proof. unfold dict_keys. apply length_map. Qed.

End EndToEnd.

(** X18.  The configs [load_workspace_configs] returns, turned into
    contexts without error and registered in order on a new registry:
    no registration replaces another, the registry holds one entry per
    config, and the dependency accepts every id and binds it to the
    context built on that config. *)
Theorem loaded_workspaces_bind environ args s0 configs
    (build : WorkspaceConfig -> WorkspaceContext) :
  fst (load_workspace_configs environ args s0) = Return configs ->
  (forall cfg, config (build cfg) = cfg /\ error (build cfg) = None) ->
  let s := registry_after (map build configs) in
  length (_contexts s) = length configs
  /\ count_level WARNING (log s) = 0
  /\ Forall (fun cfg =>
               exists token,
                 _apply_enter (id cfg) s
                 = (Return (build cfg, token),
                    set_current (Some (build cfg)) s)) configs.
Proof.
  intros Hload Hbuild s.
  destruct (loaded_configs_facts _ _ _ _ Hload) as [Hnd Hen].
  assert (Hids : map WorkspaceContext_id (map build configs) = id <$> configs)
    by (apply map_ids_of_built; intros cfg; apply Hbuild).
  assert (Hlen : length (_contexts s) = length configs).
  { subst s. rewrite <- dict_keys_length, registry_after_contexts.
    rewrite assign_all_keys, Hids. cbn [dict_keys map app].
    rewrite filter_all by (apply Forall_forall; intros k _; apply not_elem_of_nil).
    rewrite (keep_first_id (fun k => k)).
    - by rewrite length_fmap.
    - by rewrite list_fmap_id. }
  split; [exact Hlen|]. split.
  - destruct (register_all_counts (map build configs) init_state)
      as (_ & Hwarn & _).
    fold (registry_after (map build configs)) in Hwarn. fold s in Hwarn.
    rewrite Hlen, length_map in Hwarn. cbn in Hwarn. lia.
  - rewrite Forall_forall. intros cfg Hin.
    rewrite Forall_forall in Hen. specialize (Hen _ Hin).
    destruct (Hbuild cfg) as [Hcfg Herr].
    eexists. replace (id cfg) with (WorkspaceContext_id (build cfg))
      by (unfold WorkspaceContext_id; by rewrite Hcfg).
    apply enter_bound.
    + subst s. rewrite registry_after_get. apply last_registered_NoDup.
      * by rewrite Hids.
      * apply list_elem_of_fmap. by exists cfg.
    + by rewrite Hcfg, Hen, Herr.
Qed.

Lemma loaded_workspaces_bind_witness :
  let build := fun cfg => {| config := cfg; rag := 1; document_manager := 2;
                             initialized := false; error := None |} in
  let s := registry_after (map build [WorkspaceConfig_of_id "a";
                                      WorkspaceConfig_of_id "b"]) in
  length (_contexts s) = 2 /\ count_level WARNING (log s) = 0.
Proof.
  intros build s.
  destruct (loaded_workspaces_bind {[ "WORKSPACES" := "a,b,a" ]}
              {| workspace := None |} init_state
              [WorkspaceConfig_of_id "a"; WorkspaceConfig_of_id "b"] build)
    as (Hlen & Hwarn & _); [reflexivity|by intros cfg|].
  split; [exact Hlen|exact Hwarn].
Defined.

(** X19.  Outside any scope, once a request run through the dependency
    is over, however it ended, [get_current_workspace] raises
    [RuntimeError] again. *)
Theorem accessor_fails_after_request {A} (workspace_id : string)
    (handler : WorkspaceContext -> M A) (s : State) :
  _current_workspace s = None ->
  fst (get_current_workspace (snd (run_request workspace_id handler s)))
  = Raise (RuntimeError
             "Workspace context not found in the current request scope").
Proof.
  intros Hnone. unfold get_current_workspace, bind, ContextVar_get.
  by rewrite run_request_slot, Hnone.
Qed.

Lemma accessor_fails_after_request_witness :
  fst (get_current_workspace
         (snd (run_request "outer"
                 (fun _ => raise (A := unit) (Exception "handler failed"))
                 (registry_after [ctx_outer]))))
  = Raise (RuntimeError
             "Workspace context not found in the current request scope").
Proof.
  apply accessor_fails_after_request. reflexivity.
Defined.

(** X20.  [shutdown_all] does not close the registry: after the sweep
    the dependency accepts and refuses the same ids as before, with the
    same contexts. *)
Theorem binding_after_shutdown
    (finalize_storages : ObjRef -> list ObjRef -> option Exc)
    (workspace_id : string) (s : State) :
  fst (_apply_enter workspace_id (snd (shutdown_all finalize_storages s)))
  = fst (_apply_enter workspace_id s).
Proof.
  unfold shutdown_all, bind. rewrite list_contexts_run.
  destruct (shutdown_loop_any finalize_storages (dict_values (_contexts s)) s)
    as (r & s' & k & -> & _ & _ & _ & Hd & Hv).
  cbn [snd].
  destruct (dict_get workspace_id (_contexts s)) as [c|] eqn:Hget.
  - pose proof Hget as Hget'. rewrite <- Hd in Hget'.
    destruct (negb (enabled (config c)) || optional_truthy (error c)) eqn:Hun.
    + by rewrite (enter_unavailable _ _ _ Hget Hun),
                 (enter_unavailable _ _ _ Hget' Hun).
    + rewrite (enter_bound _ _ _ Hget Hun), (enter_bound _ _ _ Hget' Hun).
      cbn [fst]. by rewrite Hv.
  - pose proof Hget as Hget'. rewrite <- Hd in Hget'.
    by rewrite (enter_unknown _ _ Hget), (enter_unknown _ _ Hget').
Qed.

(** ** Concatenation of aggregate sources *)

Section Concatenation.

Lemma split_append_general sep a b :
  split sep (a +:+ String sep b) = split sep a ++ split sep b.
Proof.
  induction a as [|c r IH].
  - rewrite append_empty_l. cbn [split app]. by rewrite decide_True.
  - rewrite append_cons. cbn [split]. case_decide.
    + by rewrite IH.
    + rewrite IH. pose proof (split_nonempty sep r) as Hne.
      by destruct (split sep r).
Qed.

Lemma parse_items_app l1 l2 :
  parse_items (l1 ++ l2) = parse_items l1 ++ parse_items l2.
Proof.
  induction l1 as [|item rest IH]; [done|].
  cbn [app parse_items]. rewrite IH. by destruct (truthy (strip item)).
Qed.

Lemma filter_none {A} (P : A -> Prop) `{!forall x, Decision (P x)} (l : list A) :
  Forall (fun x => ~ P x) l -> filter P l = [].
Proof.
  induction 1 as [|x r Hx _ IH]; [done|]. by rewrite filter_cons_False.
Qed.

(** Elements whose keys occurred before add nothing. *)
Lemma keep_first_absorb {A} (key : A -> string) (l1 l2 : list A) :
  (forall x, x ∈ l2 -> key x ∈ key <$> l1) ->
  keep_first key (l1 ++ l2) = keep_first key l1.
Proof.
  intros Hin. rewrite keep_first_app, filter_none; [by rewrite app_nil_r|].
  apply Forall_forall. intros x Hx Hn. apply Hn, Hin.
  eapply elem_of_sublist; [exact Hx|apply keep_first_sublist].
Qed.

Lemma parse_concat a b :
  _parse_workspace_ids (a +:+ String comma b)
  = _parse_workspace_ids a ++ _parse_workspace_ids b.
Proof.
  unfold _parse_workspace_ids.
  by rewrite split_append_general, parse_items_app.
Qed.

End Concatenation.

(** X21.  The ids of two raw strings put together with a comma are the
    ids of the first followed by the ids of the second; so a comma more
    at either end yields no id. *)
Theorem parse_workspace_ids_concat (a b : string) :
  _parse_workspace_ids (a +:+ String comma b)
  = _parse_workspace_ids a ++ _parse_workspace_ids b
  /\ _parse_workspace_ids (a +:+ String comma EmptyString)
     = _parse_workspace_ids a
  /\ _parse_workspace_ids (String comma b) = _parse_workspace_ids b.
Proof.
  split; [apply parse_concat|]. split.
  - rewrite parse_concat. apply app_nil_r.
  - apply (parse_concat EmptyString b).
Qed.

(** X22.  Ids added at the end of the aggregate source that all occur
    before change nothing of the result. *)
Theorem repeated_ids_change_nothing environ environ' args s a b :
  getenv environ "WORKSPACES" = Some a ->
  getenv environ' "WORKSPACES" = Some (a +:+ String comma b) ->
  _parse_workspace_ids a <> [] ->
  (forall w, w ∈ _parse_workspace_ids b -> w ∈ _parse_workspace_ids a) ->
  fst (load_workspace_configs environ' args s)
  = fst (load_workspace_configs environ args s).
Proof.
  intros Ha Hab Hne Hsub.
  rewrite !load_workspace_configs_value.
  rewrite (aggregate_ids_lookup _ _ Ha), (aggregate_ids_lookup _ _ Hab).
  rewrite parse_concat.
  destruct (_parse_workspace_ids a) as [|w ws] eqn:Hpa; [done|].
  rewrite <- app_comm_cons. f_equal.
  change (WorkspaceConfig_of_id w
          :: map WorkspaceConfig_of_id (ws ++ _parse_workspace_ids b))
    with (map WorkspaceConfig_of_id ((w :: ws) ++ _parse_workspace_ids b)).
  rewrite app_comm_cons, map_app. apply keep_first_absorb.
  intros cfg Hcfg. apply list_elem_of_fmap in Hcfg as [x [-> Hx]].
  cbn [id WorkspaceConfig_of_id]. apply list_elem_of_fmap.
  exists (WorkspaceConfig_of_id x). split; [done|].
  apply list_elem_of_fmap. exists x. split; [done|]. by apply Hsub.
Qed.

Lemma repeated_ids_change_nothing_witness :
  fst (load_workspace_configs {[ "WORKSPACES" := "a, b,b ,a" ]}
         {| workspace := None |} init_state)
  = fst (load_workspace_configs {[ "WORKSPACES" := "a, b" ]}
           {| workspace := None |} init_state).
Proof.
  apply (repeated_ids_change_nothing {[ "WORKSPACES" := "a, b" ]}
           {[ "WORKSPACES" := "a, b,b ,a" ]} _ _ "a, b" "b ,a");
    [reflexivity|reflexivity|discriminate|].
  intros w Hw. vm_compute in Hw. vm_compute. set_solver.
Defined.
